(** * determineMimeTypes.py: classification of MIME-type labels

    A shallow embedding of [DetermineMimes/determineMimeTypes.py] and the
    properties of its loader, classifier and aggregator.

    Text is modelled by [string], on code points below 128: the character
    classes below are those of Python's [str] methods and of [re] on that
    range.  Python integers are unbounded and are modelled by [Z] (the
    interpreter's limit on the length of a digit string is not modelled).
    A CSV file is modelled by the rows [csv.reader] yields for it, a blank
    line being the empty row, and the working directory by the list of its
    files in the order [Path.iterdir] gives them.  The functions of the
    script run in a state-and-exception monad over the module's global
    tables, the directory and the standard output. *)

From Stdlib Require Import ZArith List String Ascii Bool Lia DecimalString Permutation.
Import ListNotations.
Local Open Scope string_scope.
Local Open Scope Z_scope.

(** ** Python's [str] and [int] primitives used by the script *)

Module PyStr.

Definition code (c : ascii) : nat := nat_of_ascii c.

Definition between (lo hi : nat) (c : ascii) : bool :=
  (Nat.leb lo (code c) && Nat.leb (code c) hi)%bool.

Definition is_upper (c : ascii) : bool := between 65 90 c.
Definition is_lower (c : ascii) : bool := between 97 122 c.
Definition is_digit (c : ascii) : bool := between 48 57 c.

(** [str.isspace] below 128: TAB, LF, VT, FF, CR, FS, GS, RS, US, space. *)
Definition is_space (c : ascii) : bool := (between 9 13 c || between 28 32 c)%bool.

(** [isspace] of C: TAB, LF, VT, FF, CR, space. *)
Definition is_c_space (c : ascii) : bool := (between 9 13 c || Ascii.eqb c " ")%bool.

(** [\w] of [re] below 128: letters, digits and the underscore. *)
Definition is_word (c : ascii) : bool :=
  (is_upper c || is_lower c || is_digit c || Ascii.eqb c "_")%bool.

Definition lower_char (c : ascii) : ascii :=
  if is_upper c then ascii_of_nat (code c + 32) else c.

(** [s.lower()] *)
Fixpoint lower (s : string) : string :=
  match s with
  | EmptyString => EmptyString
  | String c s' => String (lower_char c) (lower s')
  end.

(** Removal of the characters of a class from both ends of a text. *)
Fixpoint lstrip_by (sp : ascii -> bool) (s : string) : string :=
  match s with
  | EmptyString => EmptyString
  | String c s' => if sp c then lstrip_by sp s' else s
  end.

Fixpoint rstrip_by (sp : ascii -> bool) (s : string) : string :=
  match s with
  | EmptyString => EmptyString
  | String c s' =>
      match rstrip_by sp s' with
      | EmptyString => if sp c then EmptyString else String c EmptyString
      | r => String c r
      end
  end.

Definition strip_by (sp : ascii -> bool) (s : string) : string :=
  rstrip_by sp (lstrip_by sp s).

(** [s.strip()] *)
Definition strip (s : string) : string := strip_by is_space s.

(** [sep.join(parts)] *)
Fixpoint join (sep : string) (parts : list string) : string :=
  match parts with
  | [] => ""
  | [p] => p
  | p :: rest => p ++ sep ++ join sep rest
  end.

Definition digit_val (c : ascii) : Z := Z.of_nat (code c - 48).

(** The digits of a base-10 literal as [int] reads them: one underscore is
    allowed between two digits, nowhere else. *)
Fixpoint parse_digits (acc : Z) (after_digit : bool) (s : string) : option Z :=
  match s with
  | EmptyString => if after_digit then Some acc else None
  | String c s' =>
      if is_digit c then parse_digits (10 * acc + digit_val c) true s'
      else if (Ascii.eqb c "_" && after_digit)%bool then parse_digits acc false s'
      else None
  end.

(** [int(s)] for a [str]: [None] stands for [ValueError].  Around the
    number [int] passes over the white space of C, which is [str.isspace]
    without FS, GS, RS and US. *)
Definition int (s : string) : option Z :=
  match strip_by is_c_space s with
  | String "+" r => parse_digits 0 false r
  | String "-" r => option_map Z.opp (parse_digits 0 false r)
  | t => parse_digits 0 false t
  end.

(** [str(n)] for an [int]. *)
Definition str (n : Z) : string := NilZero.string_of_int (Z.to_int n).

(** Truth value of a value that is [None] or a [str]. *)
Definition truthy (v : option string) : bool :=
  match v with
  | None => false
  | Some EmptyString => false
  | Some _ => true
  end.

(** Rendering of such a value in an f-string. *)
Definition fmt (v : option string) : string :=
  match v with
  | None => "None"
  | Some s => s
  end.

End PyStr.

(** ** The fragment of [re] the script compiles *)

Module Re.

Import PyStr.

(** The pieces the script's patterns are made of: [\b], an escaped literal,
    [.*] and [$]. *)
Inductive atom : Type :=
  | Boundary
  | Lit (s : string)
  | DotStar
  | EndAnchor.

(** A compiled pattern with its [re.IGNORECASE] flag. *)
Record pattern : Type := compile { atoms : list atom; ignorecase : bool }.

Definition char_eq (ic : bool) (p c : ascii) : bool :=
  if ic then Ascii.eqb (lower_char p) (lower_char c) else Ascii.eqb p c.

Definition is_word_opt (c : option ascii) : bool :=
  match c with
  | Some c => is_word c
  | None => false
  end.

Definition head (s : string) : option ascii :=
  match s with
  | EmptyString => None
  | String c _ => Some c
  end.

(** [\b] between [prev] and the rest [s]: exactly one side is a word
    character; outside the text counts as a non-word character. *)
Definition boundary (prev : option ascii) (s : string) : bool :=
  xorb (is_word_opt prev) (is_word_opt (head s)).

(** [$] without [re.MULTILINE]: at the end, or before a final newline. *)
Definition at_end (s : string) : bool :=
  match s with
  | EmptyString => true
  | String c EmptyString => Ascii.eqb c "010"
  | _ => false
  end.

(** Consume the literal [l] at the head of [s]: the last character read and
    the rest of the text. *)
Fixpoint eat (ic : bool) (l : string) (prev : option ascii) (s : string)
  : option (option ascii * string) :=
  match l with
  | EmptyString => Some (prev, s)
  | String p l' =>
      match s with
      | EmptyString => None
      | String c s' => if char_eq ic p c then eat ic l' (Some c) s' else None
      end
  end.

(** Does the atom list match at the current position? *)
Fixpoint match_here (ic : bool) (p : list atom) {struct p}
  : option ascii -> string -> bool :=
  match p with
  | [] => fun _ _ => true
  | Boundary :: p' => fun prev s => (boundary prev s && match_here ic p' prev s)%bool
  | Lit l :: p' => fun prev s =>
      match eat ic l prev s with
      | Some (prev', s') => match_here ic p' prev' s'
      | None => false
      end
  | DotStar :: p' =>
      fix star (prev : option ascii) (s : string) {struct s} : bool :=
        (match_here ic p' prev s
         || match s with
            | EmptyString => false
            | String c s' => if Ascii.eqb c "010" then false else star (Some c) s'
            end)%bool
  | EndAnchor :: p' => fun prev s => (at_end s && match_here ic p' prev s)%bool
  end.

Fixpoint search_from (ic : bool) (p : list atom) (prev : option ascii) (s : string) : bool :=
  (match_here ic p prev s
   || match s with
      | EmptyString => false
      | String c s' => search_from ic p (Some c) s'
      end)%bool.

(** [pattern.search(s)] as a truth value: a match starting anywhere. *)
Definition search (p : pattern) (s : string) : bool :=
  search_from (ignorecase p) (atoms p) None s.

End Re.

(** ** Dictionaries in insertion order *)

Module PyDict.

Section Dict.

Context {K V : Type} (eqb : K -> K -> bool).

Definition dict : Type := list (K * V).

(** [d.get(k)] *)
Fixpoint get (d : dict) (k : K) : option V :=
  match d with
  | [] => None
  | (k', v) :: d' => if eqb k' k then Some v else get d' k
  end.

(** [d[k] = v]: an existing key keeps its place, a new one goes last. *)
Fixpoint set (d : dict) (k : K) (v : V) : dict :=
  match d with
  | [] => [(k, v)]
  | (k', v') :: d' => if eqb k' k then (k', v) :: d' else (k', v') :: set d' k v
  end.

(** [d[k]] on a [defaultdict] whose factory gives [dflt]. *)
Definition get_default (dflt : V) (d : dict) (k : K) : V :=
  match get d k with
  | Some v => v
  | None => dflt
  end.

Definition keys (d : dict) : list K := map fst d.

End Dict.

(** Keys that are a [str] or [None]. *)
Definition okey_eqb (a b : option string) : bool :=
  match a, b with
  | Some x, Some y => String.eqb x y
  | None, None => true
  | _, _ => false
  end.

(** [x in s] and [s.add(x)] for a set of strings, kept as a list without
    repetition and used through membership only. *)
Definition mem (x : string) (s : list string) : bool := existsb (String.eqb x) s.

Definition add (x : string) (s : list string) : list string :=
  if mem x s then s else (s ++ [x])%list.

End PyDict.

(** ** The script *)

Module Script.

Import PyStr PyDict.

(** The rows [csv.reader] yields for a file. *)
Definition csv : Type := list (list string).

(** The module's three global tables, the working directory (in the order
    [Path.iterdir] lists it) and what has been printed. *)
Record world : Type := mkWorld {
  ext_to_mime : list (string * string);
  mime_patterns : list (string * list Re.pattern);
  valid_mimes : list string;
  cwd : list (string * csv);
  stdout : list string
}.

Inductive exn : Type :=
  | FileNotFoundError
  | TypeError
  | IndexError
  | KeyError
  | AttributeError.

Inductive outcome (A : Type) : Type :=
  | Ok (a : A)
  | Raise (e : exn).

Arguments Ok {A} a.
Arguments Raise {A} e.

(** Computations on the world that may raise; what was done before an
    exception stays done. *)
Definition M (A : Type) : Type := world -> outcome A * world.

Definition ret {A} (a : A) : M A := fun w => (Ok a, w).

Definition bind {A B} (m : M A) (f : A -> M B) : M B :=
  fun w =>
    match m w with
    | (Ok a, w') => f a w'
    | (Raise e, w') => (Raise e, w')
    end.

Definition raise {A} (e : exn) : M A := fun w => (Raise e, w).

Definition gets {A} (f : world -> A) : M A := fun w => (Ok (f w), w).

Definition modify (f : world -> world) : M unit := fun w => (Ok tt, f w).

Notation "x <- m ;; k" := (bind m (fun x => k))
  (at level 61, m at next level, right associativity).
Notation "m ;; k" := (bind m (fun _ => k))
  (at level 61, right associativity).

(** A [for] loop that carries the local variables [a] through its body. *)
Fixpoint foldM {A B} (body : A -> B -> M A) (l : list B) (a : A) : M A :=
  match l with
  | [] => ret a
  | x :: l' => a' <- body a x ;; foldM body l' a'
  end.

Definition set_ext_to_mime (d : list (string * string)) (w : world) : world :=
  mkWorld d (mime_patterns w) (valid_mimes w) (cwd w) (stdout w).

Definition set_mime_patterns (d : list (string * list Re.pattern)) (w : world) : world :=
  mkWorld (ext_to_mime w) d (valid_mimes w) (cwd w) (stdout w).

Definition set_valid_mimes (s : list string) (w : world) : world :=
  mkWorld (ext_to_mime w) (mime_patterns w) s (cwd w) (stdout w).

Definition set_cwd (c : list (string * csv)) (w : world) : world :=
  mkWorld (ext_to_mime w) (mime_patterns w) (valid_mimes w) c (stdout w).

(** [print(line)] *)
Definition print (line : string) : M unit :=
  modify (fun w => mkWorld (ext_to_mime w) (mime_patterns w) (valid_mimes w) (cwd w)
                           (stdout w ++ [line])%list).

(** [open(path)] for reading, then [csv.reader] on it; [open(None)] is a
    [TypeError]. *)
Definition open_read (path : option string) : M csv :=
  match path with
  | None => raise TypeError
  | Some p =>
      c <- gets cwd ;;
      match get String.eqb c p with
      | Some rows => ret rows
      | None => raise FileNotFoundError
      end
  end.

(** [open(path, 'w')] and the rows handed to [csv.writer]: the file is
    replaced where it stands, or created and listed after the others. *)
Definition write_file (path : string) (rows : csv) : M unit :=
  modify (fun w => set_cwd (set String.eqb (cwd w) path rows) w).

(** The dictionary [csv.DictReader] builds for one row: the fields named by
    the header, the names the row is too short for mapped to [None]. *)
Fixpoint zip_fields (fieldnames row : list string) (d : list (string * option string))
  : list (string * option string) :=
  match fieldnames with
  | [] => d
  | f :: fieldnames' =>
      match row with
      | v :: row' => zip_fields fieldnames' row' (set String.eqb d f (Some v))
      | [] => zip_fields fieldnames' [] (set String.eqb d f None)
      end
  end.

Definition is_blank (row : list string) : bool :=
  match row with
  | [] => true
  | _ => false
  end.

(** [csv.DictReader]: the first row names the fields, blank rows are passed
    over. *)
Definition dict_reader (rows : csv) : list (list (string * option string)) :=
  match rows with
  | [] => []
  | fieldnames :: data =>
      map (fun row => zip_fields fieldnames row []) (filter (fun row => negb (is_blank row)) data)
  end.

(** [row[k]] on a row of the [DictReader] *)
Definition subscript (row : list (string * option string)) (k : string) : M (option string) :=
  match get String.eqb row k with
  | Some v => ret v
  | None => raise KeyError
  end.

(** [v.strip().lower()] *)
Definition strip_lower (v : option string) : M string :=
  match v with
  | Some s => ret (lower (strip s))
  | None => raise AttributeError
  end.

(** The three patterns compiled for a row, with [re.IGNORECASE]. *)
Definition word_pattern (lit : string) : Re.pattern :=
  Re.compile [Re.Boundary; Re.Lit lit; Re.Boundary] true.

Definition suffix_pattern (lit : string) : Re.pattern :=
  Re.compile [Re.DotStar; Re.Lit lit; Re.EndAnchor] true.

(** [mime_patterns[mime].append(p)] *)
Definition append_pattern (mime : string) (p : Re.pattern) : M unit :=
  pats <- gets mime_patterns ;;
  match get String.eqb pats mime with
  | Some l => modify (fun w => set_mime_patterns (set String.eqb (mime_patterns w) mime (l ++ [p])%list) w)
  | None => raise KeyError
  end.

(** The body of the loop of [load_mime_mapping]. *)
Definition load_row (row : list (string * option string)) : M unit :=
  e <- subscript row "extension" ;;
  ext <- strip_lower e ;;
  m <- subscript row "mime_type" ;;
  mime <- strip_lower m ;;
  modify (fun w => set_ext_to_mime (set String.eqb (ext_to_mime w) ext mime) w) ;;
  modify (fun w => set_valid_mimes (add mime (valid_mimes w)) w) ;;
  pats <- gets mime_patterns ;;
  (match get String.eqb pats mime with
   | None => modify (fun w => set_mime_patterns (set String.eqb (mime_patterns w) mime []) w)
   | Some _ => ret tt
   end) ;;
  append_pattern mime (word_pattern ext) ;;
  append_pattern mime (suffix_pattern ext) ;;
  append_pattern mime (word_pattern mime).

Definition load_mime_mapping (mapping_path : string) : M unit :=
  rows <- open_read (Some mapping_path) ;;
  foldM (fun _ row => load_row row) (dict_reader rows) tt.

Definition find_file (pattern : string) : M (option string) :=
  c <- gets cwd ;;
  ret (option_map fst (find (fun f => String.eqb (lower (fst f)) (lower pattern)) c)).

Definition normalize_entry (entry : string) : string := lower entry.

(** The two nested loops of [match_mime] over [mime_patterns.items()]. *)
Fixpoint first_match (items : list (string * list Re.pattern)) (entry : string) : option string :=
  match items with
  | [] => None
  | (mime_type, patterns) :: items' =>
      if existsb (fun p => Re.search p entry) patterns then Some mime_type
      else first_match items' entry
  end.

Definition match_mime (entry : string) : M (option string) :=
  items <- gets mime_patterns ;;
  ret (first_match items entry).

(** The text left when [p] is removed from the front of [s]. *)
Fixpoint drop_prefix (p s : string) : option string :=
  match p with
  | EmptyString => Some s
  | String a p' =>
      match s with
      | EmptyString => None
      | String b s' => if Ascii.eqb a b then drop_prefix p' s' else None
      end
  end.

(** [(.*?)] followed by [suffix]: the shortest run of characters other than
    newline after which [suffix] follows. *)
Fixpoint lazy_until (suffix s : string) : option string :=
  match drop_prefix suffix s with
  | Some _ => Some ""
  | None =>
      match s with
      | EmptyString => None
      | String c s' =>
          if Ascii.eqb c "010" then None
          else option_map (String c) (lazy_until suffix s')
      end
  end.

(** [re.search(r'prod-(.*?)-mime-types-counts\.csv', s)] and its group 1:
    the leftmost start at which the pattern matches. *)
Fixpoint search_env (s : string) : option string :=
  match
    match drop_prefix "prod-" s with
    | Some r => lazy_until "-mime-types-counts.csv" r
    | None => None
    end
  with
  | Some env => Some env
  | None =>
      match s with
      | EmptyString => None
      | String _ s' => search_env s'
      end
  end.

Definition extract_env (filename : string) : option string := search_env filename.

(** The local variables of [process_counts].  The keys of the potential
    tables are what [match_mime] returned, a [str] or [None]. *)
Record buckets : Type := mkBuckets {
  valid_mime_aggregate : list (string * Z);
  invalid_mime_aggregate : list (string * Z);
  potential_mime_aggregate : list (option string * Z);
  valid_entry_map : list (string * list string);
  invalid_entry_map : list (string * list string);
  potential_entry_map : list (option string * list string);
  valid_mime_sum : Z;
  invalid_mime_sum : Z;
  possible_mime_sum : Z
}.

Definition empty_buckets : buckets := mkBuckets [] [] [] [] [] [] 0 0 0.

(** [d[k] += n] on a [defaultdict(int)] and [d[k].append(e)] on a
    [defaultdict(list)]. *)
Definition incr {K} (eqb : K -> K -> bool) (d : list (K * Z)) (k : K) (n : Z) : list (K * Z) :=
  set eqb d k (get_default eqb 0 d k + n).

Definition append_to {K} (eqb : K -> K -> bool) (d : list (K * list string)) (k : K) (e : string)
  : list (K * list string) :=
  set eqb d k (get_default eqb [] d k ++ [e])%list.

Definition add_valid (b : buckets) (entry : string) (count : Z) : buckets :=
  mkBuckets (incr String.eqb (valid_mime_aggregate b) entry count)
            (invalid_mime_aggregate b) (potential_mime_aggregate b)
            (append_to String.eqb (valid_entry_map b) entry entry)
            (invalid_entry_map b) (potential_entry_map b)
            (valid_mime_sum b + count) (invalid_mime_sum b) (possible_mime_sum b).

Definition add_potential (b : buckets) (matched_mime : option string) (entry : string) (count : Z)
  : buckets :=
  mkBuckets (valid_mime_aggregate b) (invalid_mime_aggregate b)
            (incr okey_eqb (potential_mime_aggregate b) matched_mime count)
            (valid_entry_map b) (invalid_entry_map b)
            (append_to okey_eqb (potential_entry_map b) matched_mime entry)
            (valid_mime_sum b) (invalid_mime_sum b) (possible_mime_sum b + count).

Definition add_invalid (b : buckets) (entry : string) (count : Z) : buckets :=
  mkBuckets (valid_mime_aggregate b)
            (incr String.eqb (invalid_mime_aggregate b) entry count)
            (potential_mime_aggregate b)
            (valid_entry_map b)
            (append_to String.eqb (invalid_entry_map b) entry entry)
            (potential_entry_map b)
            (valid_mime_sum b) (invalid_mime_sum b + count) (possible_mime_sum b).

(** [int(row[1])] under [except (IndexError, ValueError)]: [None] when
    either is raised. *)
Definition row_count (row : list string) : option Z :=
  match nth_error row 1 with
  | Some field => int field
  | None => None
  end.

(** The body of the row loop of [process_counts]; [entry = row[0]] stands
    outside the [try]. *)
Definition process_row (b : buckets) (row : list string) : M buckets :=
  match row with
  | [] => raise IndexError
  | entry :: _ =>
      match row_count row with
      | None => ret b
      | Some count =>
          known <- gets valid_mimes ;;
          if mem entry known then ret (add_valid b entry count)
          else
            m <- match_mime (normalize_entry entry) ;;
            if truthy m then
              matched_mime <- match_mime (normalize_entry entry) ;;
              ret (add_potential b matched_mime entry count)
            else ret (add_invalid b entry count)
      end
  end.

(** How [csv.writer] writes a value that is a [str] or [None]. *)
Definition cell (v : option string) : string :=
  match v with
  | Some s => s
  | None => ""
  end.

Definition potential_report (b : buckets) : csv :=
  (["Matched Mime Types"; "Count"; "Potential Mime Types"]
   :: map (fun item : option string * Z =>
             [cell (fst item); str (snd item);
              join ", " (get_default okey_eqb [] (potential_entry_map b) (fst item))])
          (potential_mime_aggregate b)
   ++ [["Total Count"; str (possible_mime_sum b); ""]])%list.

Definition valid_report (b : buckets) : csv :=
  (["Valid Mime Types"; "Count"]
   :: map (fun item : string * Z => [fst item; str (snd item)]) (valid_mime_aggregate b)
   ++ [["Total Valid Count"; str (valid_mime_sum b)]])%list.

Definition invalid_report (b : buckets) : csv :=
  (["Invalid Mime Types"; "Count"]
   :: map (fun item : string * Z => [fst item; str (snd item)]) (invalid_mime_aggregate b)
   ++ [["Total Invalid Count"; str (invalid_mime_sum b)]])%list.

Definition newline : string := String "010" EmptyString.

Definition write_potential_mime_types (output_file : string) (b : buckets) (env : option string)
  : M unit :=
  write_file output_file (potential_report b) ;;
  print ("Sum of counts for possible mime type matches for " ++ fmt env ++ ": "
         ++ str (possible_mime_sum b) ++ newline).

Definition write_invalid_mime_types (output_file : string) (b : buckets) (env : option string)
  : M unit :=
  write_file output_file (invalid_report b) ;;
  print ("Sum of counts for invalid mime type matches for " ++ fmt env ++ ": "
         ++ str (invalid_mime_sum b) ++ newline).

Definition write_valid_mime_types (output_file : string) (b : buckets) (env : option string)
  : M unit :=
  write_file output_file (valid_report b) ;;
  print ("Sum of counts for valid mime type matches for " ++ fmt env ++ ": "
         ++ str (valid_mime_sum b) ++ newline).

(** The rows read by the loop of [process_counts]: [next(reader, None)]
    drops the first row, then every row goes through the body. *)
Definition scan_counts (input_file : string) : M buckets :=
  rows <- open_read (Some input_file) ;;
  foldM process_row (tl rows) empty_buckets.

Definition process_counts (input_file potential_outfile valid_outfile invalid_outfile : string)
  : M unit :=
  let env := extract_env input_file in
  b <- scan_counts input_file ;;
  write_potential_mime_types potential_outfile b env ;;
  write_valid_mime_types valid_outfile b env ;;
  write_invalid_mime_types invalid_outfile b env.

Definition sum_counts (filename : option string) : M Z :=
  rows <- open_read filename ;;
  ret (fold_left (fun total row =>
                    match row_count row with
                    | Some n => total + n
                    | None => total
                    end) (tl rows) 0).

Definition files_envs : list (string * string * string * string) :=
  [ ("prod-us-only-mime-types-counts.csv", "mime-type-mapping-US.csv",
     "valid-mime-type-mapping-US.csv", "invalid-mime-type-mapping-US.csv");
    ("prod-eu-only-mime-types-counts.csv", "mime-type-mapping-EU.csv",
     "valid-mime-type-mapping-EU.csv", "invalid-mime-type-mapping-EU.csv");
    ("prod-global-mime-types-counts.csv", "mime-type-mapping-Global.csv",
     "valid-mime-type-mapping-Global.csv", "invalid-mime-type-mapping-Global.csv") ].

(** The body of the loop of [main].  The [else] branch is the parameter
    [not_found], so that its part in a run can be stated; [main] below
    puts the source's [print] there. *)
Definition main_step (not_found : string -> M unit) (total_count : Z)
           (f : string * string * string * string) : M Z :=
  let '(infile, potential_outfile, valid_outfile, invalid_outfile) := f in
  actual_file <- find_file infile ;;
  n <- sum_counts actual_file ;;
  (match actual_file with
   | Some path => process_counts path potential_outfile valid_outfile invalid_outfile
   | None => not_found infile
   end) ;;
  ret (total_count + n).

Definition main_with (not_found : string -> M unit) : M unit :=
  load_mime_mapping "mimeTypes.csv" ;;
  total_count <- foldM (main_step not_found) files_envs 0 ;;
  print ("Total count across all files: " ++ str total_count ++ newline).

Definition main : M unit :=
  main_with (fun infile => print ("File not found: " ++ infile)).

(** A process starts with empty tables and nothing printed. *)
Definition start (dir : list (string * csv)) : world := mkWorld [] [] [] dir [].

End Script.

(** ** Notions used in the statements *)

(** [preserves proj m]: running [m] leaves the part [proj] of the world as
    it was, whether [m] returns or raises. *)
Definition preserves {X A} (proj : Script.world -> X) (m : Script.M A) : Prop :=
  forall w, proj (snd (m w)) = proj w.

(** The three global tables. *)
Definition tables (w : Script.world) :
  list (string * string) * list (string * list Re.pattern) * list string :=
  (Script.ext_to_mime w, Script.mime_patterns w, Script.valid_mimes w).

(** Code that only reads the world. *)
Definition reads_only {A} (m : Script.M A) : Prop := preserves (fun w => w) m.

(** What the loader reads from a row of the [DictReader] that has both
    columns: the extension and the MIME type, stripped and lower-cased. *)
Definition row_fields (row : list (string * option string)) : option (string * string) :=
  match PyDict.get String.eqb row "extension", PyDict.get String.eqb row "mime_type" with
  | Some (Some e), Some (Some m) => Some (PyStr.lower (PyStr.strip e), PyStr.lower (PyStr.strip m))
  | _, _ => None
  end.

(** The patterns the rows contribute to [mime], in row order. *)
Definition patterns_of_rows (rows : list (list (string * option string))) (mime : string)
  : list Re.pattern :=
  flat_map (fun row =>
              match row_fields row with
              | Some (ext, mime') =>
                  if String.eqb mime' mime
                  then [Script.word_pattern ext; Script.suffix_pattern ext;
                        Script.word_pattern mime']
                  else []
              | None => []
              end) rows.

(** The sum of the counts of the rows whose entry is [e]. *)
Definition total_for (e : string) (rows : Script.csv) : Z :=
  fold_right (fun row acc =>
                match row, Script.row_count row with
                | entry :: _, Some n => if String.eqb entry e then n + acc else acc
                | _, _ => acc
                end) 0 rows.

(** The three bucket totals together. *)
Definition bucket_total (b : Script.buckets) : Z :=
  Script.valid_mime_sum b + Script.possible_mime_sum b + Script.invalid_mime_sum b.

(** The total [sum_counts] accumulates over the rows after the header. *)
Definition count_total (rows : Script.csv) (start : Z) : Z :=
  fold_left (fun total row =>
               match Script.row_count row with
               | Some n => total + n
               | None => total
               end) rows start.

(** Is one of the patterns of the item found in the entry? *)
Definition matches (entry : string) (item : string * list Re.pattern) : bool :=
  existsb (fun p => Re.search p entry) (snd item).

(** The entry [e] is no key of the invalid bucket and in no entry list of
    the potential bucket. *)
Definition untouched_by (e : string) (b : Script.buckets) : Prop :=
  ~ In e (PyDict.keys (Script.invalid_mime_aggregate b))
  /\ ~ In e (PyDict.keys (Script.invalid_entry_map b))
  /\ forall k l, In (k, l) (Script.potential_entry_map b) -> ~ In e l.

(** The last character of a text. *)
Fixpoint last_char (s : string) : option ascii :=
  match s with
  | EmptyString => None
  | String c EmptyString => Some c
  | String _ s' => last_char s'
  end.

(** What [load_mime_mapping] keeps true of the tables: the keys of
    [mime_patterns] are the members of [valid_mimes], in the same order;
    every one is lower-case and has its own whole-word pattern. *)
Definition tables_wf (w : Script.world) : Prop :=
  PyDict.keys (Script.mime_patterns w) = Script.valid_mimes w
  /\ (forall m, In m (Script.valid_mimes w) -> PyStr.lower m = m)
  /\ (forall m ps,
        PyDict.get String.eqb (Script.mime_patterns w) m = Some ps ->
        In (Script.word_pattern m) ps).

(** Example inputs. *)
Definition counts_header : list string := ["entry"; "count"].

Definition jpg_mapping : Script.csv := [["extension"; "mime_type"]; ["jpg"; "image/jpeg"]].

Definition cpp_mapping : Script.csv := [["extension"; "mime_type"]; ["cpp"; "text/x-c++"]].

Definition empty_mime_mapping : Script.csv := [["extension"; "mime_type"]; ["jpg"; ""]].

(** The world after [load_mime_mapping] on a directory that holds
    [mapping] as its [mimeTypes.csv], next to the files [others]. *)
Definition loaded (mapping : Script.csv) (others : list (string * Script.csv)) : Script.world :=
  snd (Script.load_mime_mapping "mimeTypes.csv" (Script.start (("mimeTypes.csv", mapping) :: others))).

Definition us_counts : string := "prod-us-only-mime-types-counts.csv".

Definition eu_counts : string := "prod-eu-only-mime-types-counts.csv".

Definition global_counts : string := "prod-global-mime-types-counts.csv".

(** A directory without the EU count file. *)
Definition dir_without_eu : list (string * Script.csv) :=
  [ ("mimeTypes.csv", jpg_mapping);
    (us_counts, [counts_header; ["image/jpeg"; "5"]]);
    (global_counts, [counts_header; ["image/jpeg"; "5"]]) ].

(** A count file with a blank line between two rows. *)
Definition counts_with_blank : Script.csv :=
  [counts_header; ["image/jpeg"; "5"]; []; ["testJPG"; "4"]].

(** The count file of the sum-invariant scenario. *)
Definition scenario_counts : Script.csv :=
  [counts_header; ["image/jpeg"; "5"]; ["myfilejpg"; "3"]; ["bogus/type"; "2"]; ["badrow"; "x"]].

(** Does the character occur in the text? *)
Fixpoint has_char (c : ascii) (s : string) : bool :=
  match s with
  | EmptyString => false
  | String a s' => (Ascii.eqb a c || has_char c s')%bool
  end.

(** The file name has the shape the pattern of [extract_env] looks for:
    [prod-], an environment name without a newline, then
    [-mime-types-counts.csv], anywhere in the name. *)
Definition env_shaped (filename : string) : Prop :=
  exists pre env post,
    has_char "010" env = false
    /\ filename = pre ++ "prod-" ++ env ++ "-mime-types-counts.csv" ++ post.

(** The nine report files of [main] and the three count files it looks
    for. *)
Definition output_names : list string :=
  flat_map (fun f : string * string * string * string =>
              let '(_, p, v, i) := f in [p; v; i]) Script.files_envs.

Definition input_names : list string :=
  map (fun f : string * string * string * string => let '(infile, _, _, _) := f in infile)
      Script.files_envs.

Definition is_output (name : string) : bool := PyDict.mem name output_names.

(** The directory without the report files. *)
Definition inputs (dir : list (string * Script.csv)) : list (string * Script.csv) :=
  filter (fun f => negb (is_output (fst f))) dir.

(** Two worlds with the same tables, the same output so far and the same
    files apart from the reports, where every file of the second world is
    as in the first or as in [D]. *)
Definition same_inputs (D : list (string * Script.csv)) (w w' : Script.world) : Prop :=
  tables w = tables w'
  /\ Script.stdout w = Script.stdout w'
  /\ inputs (Script.cwd w) = inputs (Script.cwd w')
  /\ forall name,
       PyDict.get String.eqb (Script.cwd w') name = PyDict.get String.eqb (Script.cwd w) name
       \/ PyDict.get String.eqb (Script.cwd w') name = PyDict.get String.eqb D name.

(** [m] does the same in two such worlds, and leaves two such worlds. *)
Definition respects (D : list (string * Script.csv)) {A} (m : Script.M A) : Prop :=
  forall w w',
    same_inputs D w w' ->
    fst (m w) = fst (m w') /\ same_inputs D (snd (m w)) (snd (m w')).

(** The MIME types of the rows, each at its first occurrence. *)
Definition mimes_in_order (rows : list (list (string * option string))) (seen : list string)
  : list string :=
  fold_left (fun acc row =>
               match row_fields row with
               | Some (_, mime) => PyDict.add mime acc
               | None => acc
               end) rows seen.

(** ** Notions used in the further properties *)

(** The sum of the counts held by a table. *)
Definition sum_values {K} (d : list (K * Z)) : Z :=
  fold_right (fun item acc => snd item + acc) 0 d.

(** Each bucket total is the sum of the counts of its table. *)
Definition totals_consistent (b : Script.buckets) : Prop :=
  Script.valid_mime_sum b = sum_values (Script.valid_mime_aggregate b)
  /\ Script.possible_mime_sum b = sum_values (Script.potential_mime_aggregate b)
  /\ Script.invalid_mime_sum b = sum_values (Script.invalid_mime_aggregate b).


(** Where the keys of the three tables come from, given the tables of
    the world [w]. *)
Definition keys_classified (w : Script.world) (b : Script.buckets) : Prop :=
  (forall k, In k (PyDict.keys (Script.valid_mime_aggregate b)) ->
             PyDict.mem k (Script.valid_mimes w) = true)
  /\ (forall k, In k (PyDict.keys (Script.invalid_mime_aggregate b)) ->
                PyDict.mem k (Script.valid_mimes w) = false
                /\ PyStr.truthy (Script.first_match (Script.mime_patterns w)
                                   (Script.normalize_entry k)) = false)
  /\ (forall k, In k (PyDict.keys (Script.potential_mime_aggregate b)) ->
                exists m, k = Some m /\ m <> ""
                          /\ In m (PyDict.keys (Script.mime_patterns w))).

(** The scenario of the sum invariant, loaded. *)
Definition scenario_world : Script.world := loaded jpg_mapping [(us_counts, scenario_counts)].

Definition scenario_buckets : Script.buckets :=
  Eval vm_compute in
    match fst (Script.scan_counts us_counts scenario_world) with
    | Script.Ok b => b
    | Script.Raise _ => Script.empty_buckets
    end.

(** The sum of the counts of the rows whose entry satisfies [sel]. *)
Definition total_where (sel : string -> bool) (rows : Script.csv) : Z :=
  fold_right (fun row acc =>
                match row, Script.row_count row with
                | entry :: _, Some n => if sel entry then n + acc else acc
                | _, _ => acc
                end) 0 rows.

(** The entry is no known MIME type and [match_mime] gives [m] for it. *)
Definition matched_to (w : Script.world) (m : string) (entry : string) : bool :=
  (negb (PyDict.mem entry (Script.valid_mimes w))
   && PyDict.okey_eqb (Script.first_match (Script.mime_patterns w) (Script.normalize_entry entry))
                      (Some m))%bool.




(** A directory on which [main] has all it needs: a mapping file whose
    rows have both columns, and for each of the three names a count file
    without a blank row after the first. *)
Definition complete_directory (dir : list (string * Script.csv)) : Prop :=
  (exists rows,
      PyDict.get String.eqb dir "mimeTypes.csv" = Some rows
      /\ Forall (fun row => row_fields row <> None) (Script.dict_reader rows))
  /\ forall infile,
       In infile input_names ->
       exists path rows,
         find (fun f => String.eqb (PyStr.lower (fst f)) (PyStr.lower infile)) dir
         = Some (path, rows)
         /\ Forall (fun row => row <> []) (tl rows).

(** A directory with the mapping and the three count files. *)
Definition full_directory : list (string * Script.csv) :=
  [ ("mimeTypes.csv", jpg_mapping);
    (us_counts, scenario_counts);
    ("Prod-EU-Only-mime-types-counts.csv", [counts_header; ["testJPG"; "4"]]);
    (global_counts, [counts_header]) ].

(** What the loader keeps true of the tables beyond [tables_wf]: no MIME
    type is twice in [valid_mimes]; every pattern list holds a positive
    multiple of three patterns, all compiled with [re.IGNORECASE]; an
    extension of [ext_to_mime] has its two patterns in the list of the MIME
    type it is mapped to, which is a known MIME type. *)
Definition loader_invariant (w : Script.world) : Prop :=
  NoDup (Script.valid_mimes w)
  /\ (forall k ps,
        In (k, ps) (Script.mime_patterns w) ->
        Forall (fun p => Re.ignorecase p = true) ps
        /\ exists n, List.length ps = (3 * S n)%nat)
  /\ (forall ext mime,
        PyDict.get String.eqb (Script.ext_to_mime w) ext = Some mime ->
        In mime (Script.valid_mimes w)
        /\ exists ps,
             PyDict.get String.eqb (Script.mime_patterns w) mime = Some ps
             /\ In (Script.word_pattern ext) ps
             /\ In (Script.suffix_pattern ext) ps).

(** The entries of the counted rows that satisfy [sel], each at its first
    occurrence. *)
Definition entries_in_order (sel : string -> bool) (rows : Script.csv) (seen : list string)
  : list string :=
  fold_left (fun acc row =>
               match row, Script.row_count row with
               | entry :: _, Some _ => if sel entry then PyDict.add entry acc else acc
               | _, _ => acc
               end) rows seen.

(** The entry is counted as invalid in the world [w]. *)
Definition unmatched (w : Script.world) (entry : string) : bool :=
  (negb (PyDict.mem entry (Script.valid_mimes w))
   && negb (PyStr.truthy (Script.first_match (Script.mime_patterns w)
                            (Script.normalize_entry entry))))%bool.

(** The tables of [w'] are those of [w] with patterns repeated: the same
    known MIME types in the same order, the same keys, and under every key
    the list of [w] followed by patterns that list already holds. *)
Definition repeats_patterns (w w' : Script.world) : Prop :=
  Script.valid_mimes w' = Script.valid_mimes w
  /\ PyDict.keys (Script.mime_patterns w') = PyDict.keys (Script.mime_patterns w)
  /\ forall k,
       exists extra,
         PyDict.get_default String.eqb [] (Script.mime_patterns w') k
         = (PyDict.get_default String.eqb [] (Script.mime_patterns w) k ++ extra)%list
         /\ incl extra (PyDict.get_default String.eqb [] (Script.mime_patterns w) k).

(** The tables of [w'] hold all that those of [w] hold. *)
Definition tables_grow (w w' : Script.world) : Prop :=
  incl (Script.valid_mimes w) (Script.valid_mimes w')
  /\ forall k,
       incl (PyDict.get_default String.eqb [] (Script.mime_patterns w) k)
            (PyDict.get_default String.eqb [] (Script.mime_patterns w') k).

(** The MIME type an extension is mapped to by the last row that names
    it, [init] when no row does. *)
Definition last_mime_for (ext : string) (rows : list (list (string * option string)))
           (init : option string) : option string :=
  fold_left (fun acc row =>
               match row_fields row with
               | Some (ext', mime) => if String.eqb ext' ext then Some mime else acc
               | None => acc
               end) rows init.

(** * Properties *)

Import PyStr PyDict Script.

(** ** Running monadic code *)

Lemma bind_ok {A B} (m : M A) (f : A -> M B) w a w' :
  m w = (Ok a, w') -> bind m f w = f a w'.
Proof. intros H. unfold bind. now rewrite H. Qed.

Lemma bind_raise {A B} (m : M A) (f : A -> M B) w e w' :
  m w = (Raise e, w') -> bind m f w = (Raise e, w').
Proof. intros H. unfold bind. now rewrite H. Qed.

(** One step of a computation whose first action returns by computation. *)
Ltac run_step := erewrite bind_ok; [| reflexivity]; cbv beta.

Lemma bind_ext {A B} (m : M A) (f g : A -> M B) w :
  (forall a w', f a w' = g a w') -> bind m f w = bind m g w.
Proof. intros H. unfold bind. destruct (m w) as [[a | e] w']; [apply H | reflexivity]. Qed.

Lemma bind_ext_left {A B} (m m' : M A) (f : A -> M B) w :
  m w = m' w -> bind m f w = bind m' f w.
Proof. intros H. unfold bind. now rewrite H. Qed.

(** ** Frame conditions *)

Section Preserves.

Context {X : Type} (proj : world -> X).

Lemma preserves_ret {A} (a : A) : preserves proj (ret a).
Proof. now intros w. Qed.

Lemma preserves_raise {A} (e : exn) : preserves proj (@raise A e).
Proof. now intros w. Qed.

Lemma preserves_gets {A} (f : world -> A) : preserves proj (gets f).
Proof. now intros w. Qed.

Lemma preserves_modify (f : world -> world) :
  (forall w, proj (f w) = proj w) -> preserves proj (modify f).
Proof. intros H w. apply H. Qed.

Lemma preserves_bind {A B} (m : M A) (f : A -> M B) :
  preserves proj m -> (forall a, preserves proj (f a)) -> preserves proj (bind m f).
Proof.
  intros Hm Hf w. unfold bind.
  specialize (Hm w). destruct (m w) as [[a | e] w']; simpl in *.
  - now rewrite Hf.
  - exact Hm.
Qed.

Lemma preserves_foldM {A B} (body : A -> B -> M A) (l : list B) :
  (forall a x, preserves proj (body a x)) -> forall a, preserves proj (foldM body l a).
Proof.
  intros Hbody. induction l as [| x l IH]; intros a; simpl.
  - apply preserves_ret.
  - apply preserves_bind; [apply Hbody | intros a'; apply IH].
Qed.

End Preserves.

Ltac preserves_step :=
  match goal with
  | |- preserves _ (bind _ _) => apply preserves_bind; [| intros ?]
  | |- preserves _ (ret _) => apply preserves_ret
  | |- preserves _ (raise _) => apply preserves_raise
  | |- preserves _ (gets _) => apply preserves_gets
  | |- preserves _ (foldM _ _ _) => apply preserves_foldM; intros ? ?
  | |- preserves _ (modify _) => apply preserves_modify; intros ?; reflexivity
  | |- preserves _ (match ?x with _ => _ end) => destruct x
  | |- preserves _ (if ?x then _ else _) => destruct x
  end.

Ltac preserves_tac := repeat preserves_step.

Lemma reads_only_preserves {X A} (proj : world -> X) (m : M A) :
  reads_only m -> preserves proj m.
Proof. intros H w. now rewrite (H w). Qed.

Lemma open_read_reads path : reads_only (open_read path).
Proof. unfold reads_only, open_read. preserves_tac. Qed.

Lemma find_file_reads pattern : reads_only (find_file pattern).
Proof. unfold reads_only, find_file. preserves_tac. Qed.

Lemma match_mime_reads entry : reads_only (match_mime entry).
Proof. unfold reads_only, match_mime. preserves_tac. Qed.

Lemma process_row_reads b row : reads_only (process_row b row).
Proof.
  unfold reads_only, process_row.
  preserves_tac; apply match_mime_reads.
Qed.

Lemma scan_counts_reads input_file : reads_only (scan_counts input_file).
Proof.
  unfold reads_only, scan_counts.
  preserves_tac; [apply open_read_reads | apply process_row_reads].
Qed.

Lemma sum_counts_reads filename : reads_only (sum_counts filename).
Proof.
  unfold reads_only, sum_counts.
  preserves_tac. apply open_read_reads.
Qed.

Lemma print_keeps_tables line : preserves tables (print line).
Proof. unfold print. preserves_tac. Qed.

Lemma write_file_keeps_tables path rows : preserves tables (write_file path rows).
Proof. unfold write_file. preserves_tac. Qed.

Lemma process_counts_keeps_tables input_file potential_outfile valid_outfile invalid_outfile :
  preserves tables (process_counts input_file potential_outfile valid_outfile invalid_outfile).
Proof.
  unfold process_counts, write_potential_mime_types, write_valid_mime_types,
    write_invalid_mime_types.
  preserves_tac;
    auto using print_keeps_tables, write_file_keeps_tables, reads_only_preserves,
      scan_counts_reads.
Qed.

Lemma main_step_keeps_tables not_found total_count f :
  (forall infile, preserves tables (not_found infile)) ->
  preserves tables (main_step not_found total_count f).
Proof.
  intros Hnf. destruct f as [[[infile p] v] i]. unfold main_step.
  preserves_tac;
    auto using reads_only_preserves, find_file_reads, sum_counts_reads,
      process_counts_keeps_tables.
Qed.

(** C10. The global tables are written by [load_mime_mapping] alone:
    [match_mime], [process_counts] and [sum_counts] leave [ext_to_mime],
    [mime_patterns] and [valid_mimes] as they found them, whatever their
    arguments and whether they return or raise, and at the end of [main]
    the tables are those [load_mime_mapping] built at its start. *)
Theorem tables_frozen_after_load :
  (forall entry, preserves tables (match_mime entry))
  /\ (forall input_file potential_outfile valid_outfile invalid_outfile,
        preserves tables
          (process_counts input_file potential_outfile valid_outfile invalid_outfile))
  /\ (forall filename, preserves tables (sum_counts filename))
  /\ (forall w, tables (snd (main w)) = tables (snd (load_mime_mapping "mimeTypes.csv" w))).
Proof.
  split; [| split; [| split]].
  - intros entry. apply reads_only_preserves, match_mime_reads.
  - apply process_counts_keeps_tables.
  - intros filename. apply reads_only_preserves, sum_counts_reads.
  - intros w. unfold main, main_with.
    set (rest := fun _ : unit => bind _ _).
    assert (Hrest : forall u, preserves tables (rest u)).
    { intros u. unfold rest. preserves_tac.
      - apply main_step_keeps_tables. intros infile. apply print_keeps_tables.
      - apply print_keeps_tables. }
    unfold bind at 1.
    destruct (load_mime_mapping "mimeTypes.csv" w) as [[[] | e] w']; simpl.
    + apply Hrest.
    + reflexivity.
Qed.

(** ** Dictionaries *)

Section DictFacts.

Context {K V : Type} (eqb : K -> K -> bool).
Hypothesis eqb_spec : forall a b, eqb a b = true <-> a = b.

Lemma eqb_same k : eqb k k = true.
Proof. now apply eqb_spec. Qed.

Lemma eqb_diff a b : a <> b -> eqb a b = false.
Proof.
  intros H. destruct (eqb a b) eqn:E; [| reflexivity].
  now apply eqb_spec in E.
Qed.

Lemma get_set_same (d : list (K * V)) k v : get eqb (set eqb d k v) k = Some v.
Proof.
  induction d as [| [k' v'] d IH]; simpl.
  - now rewrite eqb_same.
  - destruct (eqb k' k) eqn:E; simpl; rewrite E; auto.
Qed.

Lemma get_set_other (d : list (K * V)) k k' v :
  k <> k' -> get eqb (set eqb d k v) k' = get eqb d k'.
Proof.
  intros Hne. induction d as [| [k0 v0] d IH]; simpl.
  - now rewrite eqb_diff.
  - destruct (eqb k0 k) eqn:E; simpl.
    + apply eqb_spec in E. subst k0. now rewrite eqb_diff.
    + now rewrite IH.
Qed.

Lemma set_set (d : list (K * V)) k v v' :
  set eqb (set eqb d k v) k v' = set eqb d k v'.
Proof.
  induction d as [| [k0 v0] d IH]; simpl.
  - now rewrite eqb_same.
  - destruct (eqb k0 k) eqn:E; simpl; rewrite E; [reflexivity | now rewrite IH].
Qed.

Lemma set_absent (d : list (K * V)) k v :
  get eqb d k = None -> set eqb d k v = (d ++ [(k, v)])%list.
Proof.
  induction d as [| [k0 v0] d IH]; simpl; [reflexivity |].
  destruct (eqb k0 k); [discriminate |]. intros H. now rewrite IH.
Qed.

Lemma keys_set_present (d : list (K * V)) k v v0 :
  get eqb d k = Some v0 -> keys (set eqb d k v) = keys d.
Proof.
  unfold keys. induction d as [| [k0 v1] d IH]; simpl; [discriminate |].
  destruct (eqb k0 k); simpl; [reflexivity |]. intros H. now rewrite IH.
Qed.

Lemma get_In (d : list (K * V)) k v : get eqb d k = Some v -> In (k, v) d.
Proof.
  induction d as [| [k0 v0] d IH]; simpl; [discriminate |].
  destruct (eqb k0 k) eqn:E.
  - intros [= ->]. apply eqb_spec in E. subst. now left.
  - intros H. right. now apply IH.
Qed.

Lemma get_None_keys (d : list (K * V)) k : get eqb d k = None <-> ~ In k (keys d).
Proof.
  unfold keys. induction d as [| [k0 v0] d IH]; simpl.
  - tauto.
  - destruct (eqb k0 k) eqn:E.
    + apply eqb_spec in E. subst. split; [discriminate | intros H; exfalso; auto].
    + rewrite IH. split.
      * intros H [-> | H']; [now rewrite eqb_same in E | auto].
      * intros H H'. apply H. now right.
Qed.

Lemma In_set (d : list (K * V)) k v k' v' :
  In (k', v') (set eqb d k v) -> (k' = k /\ v' = v) \/ In (k', v') d.
Proof.
  induction d as [| [k0 v0] d IH]; simpl.
  - intros [[= <- <-] | []]. now left.
  - destruct (eqb k0 k) eqn:E; simpl.
    + apply eqb_spec in E. subst. intros [[= <- <-] | H]; [now left | right; now right].
    + intros [H | H]; [right; now left |].
      destruct (IH H) as [H' | H']; [now left | right; now right].
Qed.

End DictFacts.

Lemma okey_eqb_spec a b : okey_eqb a b = true <-> a = b.
Proof.
  destruct a as [x |], b as [y |]; simpl; try (split; congruence).
  rewrite String.eqb_eq. split; congruence.
Qed.

Lemma mem_In x s : mem x s = true <-> In x s.
Proof.
  unfold mem. rewrite existsb_exists. split.
  - intros [y [Hy E]]. apply String.eqb_eq in E. now subst.
  - intros H. exists x. split; [exact H | apply String.eqb_refl].
Qed.

Lemma In_add x y s : In x (add y s) <-> x = y \/ In x s.
Proof.
  unfold add. destruct (mem y s) eqn:E.
  - apply mem_In in E. split; [now right | intros [-> | H]; assumption].
  - rewrite in_app_iff. simpl. split; [intros [H | [H | []]]; auto | intros [H | H]; auto].
Qed.

Lemma keys_set {V} (d : list (string * V)) k v :
  keys (set String.eqb d k v) = add k (keys d).
Proof.
  unfold add. destruct (mem k (keys d)) eqn:E.
  - apply mem_In in E. destruct (get String.eqb d k) as [v0 |] eqn:Hget.
    + now apply (keys_set_present String.eqb) with (v0 := v0).
    + apply (get_None_keys String.eqb String.eqb_eq) in Hget. contradiction.
  - rewrite (set_absent String.eqb).
    + unfold keys. now rewrite map_app.
    + apply (get_None_keys String.eqb String.eqb_eq). intros H.
      apply mem_In in H. congruence.
Qed.

(** ** Characters and case *)

Lemma lower_char_idem c : lower_char (lower_char c) = lower_char c.
Proof. destruct c as [[] [] [] [] [] [] [] []]; reflexivity. Qed.

Lemma is_word_lower_char c : is_word (lower_char c) = is_word c.
Proof. destruct c as [[] [] [] [] [] [] [] []]; reflexivity. Qed.

Lemma is_space_lower_char c : is_space (lower_char c) = is_space c.
Proof. destruct c as [[] [] [] [] [] [] [] []]; reflexivity. Qed.

Lemma lower_idem s : lower (lower s) = lower s.
Proof. induction s as [| c s IH]; simpl; [reflexivity | now rewrite lower_char_idem, IH]. Qed.

Lemma lower_lstrip s : lower (lstrip_by is_space s) = lstrip_by is_space (lower s).
Proof.
  induction s as [| c s IH]; simpl; [reflexivity |].
  rewrite is_space_lower_char. destruct (is_space c); [exact IH | reflexivity].
Qed.

Lemma lower_rstrip s : lower (rstrip_by is_space s) = rstrip_by is_space (lower s).
Proof.
  induction s as [| c s IH]; simpl; [reflexivity |].
  rewrite <- IH, is_space_lower_char.
  destruct (rstrip_by is_space s); simpl; [destruct (is_space c) |]; reflexivity.
Qed.

(** Lower-casing and stripping commute: the order in which the loader
    applies them does not matter. *)
Lemma lower_strip s : lower (strip s) = strip (lower s).
Proof. unfold strip, strip_by. now rewrite lower_rstrip, lower_lstrip. Qed.

(** ** The loader *)

Lemma append_pattern_run mime p l w :
  get String.eqb (mime_patterns w) mime = Some l ->
  append_pattern mime p w
  = (Ok tt, set_mime_patterns (set String.eqb (mime_patterns w) mime (l ++ [p])%list) w).
Proof.
  intros H. unfold append_pattern, bind, gets. now rewrite H.
Qed.

Lemma load_row_run row e m w :
  get String.eqb row "extension" = Some (Some e) ->
  get String.eqb row "mime_type" = Some (Some m) ->
  load_row row w
  = (Ok tt,
     mkWorld (set String.eqb (ext_to_mime w) (lower (strip e)) (lower (strip m)))
             (set String.eqb (mime_patterns w) (lower (strip m))
                  (get_default String.eqb [] (mime_patterns w) (lower (strip m))
                   ++ [word_pattern (lower (strip e)); suffix_pattern (lower (strip e));
                       word_pattern (lower (strip m))])%list)
             (add (lower (strip m)) (valid_mimes w))
             (cwd w) (stdout w)).
Proof.
  intros He Hm.
  unfold load_row, subscript. rewrite He, Hm. unfold strip_lower.
  do 7 run_step.
  cbn [mime_patterns set_valid_mimes set_ext_to_mime].
  unfold get_default.
  destruct (get String.eqb (mime_patterns w) (lower (strip m))) as [l |] eqn:Hget.
  - run_step.
    erewrite bind_ok; [| apply append_pattern_run; simpl; exact Hget].
    erewrite bind_ok;
      [| apply append_pattern_run; simpl; apply get_set_same, String.eqb_eq].
    erewrite append_pattern_run
      by (simpl; apply get_set_same, String.eqb_eq).
    unfold set_mime_patterns, set_valid_mimes, set_ext_to_mime. simpl.
    rewrite !(set_set String.eqb String.eqb_eq).
    now rewrite <- !app_assoc.
  - run_step.
    erewrite bind_ok;
      [| apply append_pattern_run; simpl; apply get_set_same, String.eqb_eq].
    erewrite bind_ok;
      [| apply append_pattern_run; simpl; apply get_set_same, String.eqb_eq].
    erewrite append_pattern_run
      by (simpl; apply get_set_same, String.eqb_eq).
    unfold set_mime_patterns, set_valid_mimes, set_ext_to_mime. simpl.
    now rewrite !(set_set String.eqb String.eqb_eq).
Qed.

Lemma row_fields_Some row ext mime :
  row_fields row = Some (ext, mime) ->
  exists e m,
    get String.eqb row "extension" = Some (Some e)
    /\ get String.eqb row "mime_type" = Some (Some m)
    /\ ext = lower (strip e) /\ mime = lower (strip m).
Proof.
  unfold row_fields.
  destruct (get String.eqb row "extension") as [[e |] |]; try discriminate.
  destruct (get String.eqb row "mime_type") as [[m |] |]; try discriminate.
  intros [= <- <-]. now exists e, m.
Qed.

Lemma get_default_set_same {V} (d : list (string * V)) k v dflt :
  get_default String.eqb dflt (set String.eqb d k v) k = v.
Proof. unfold get_default. now rewrite (get_set_same String.eqb String.eqb_eq). Qed.

Lemma get_default_set_other {V} (d : list (string * V)) k k' v dflt :
  k <> k' ->
  get_default String.eqb dflt (set String.eqb d k v) k' = get_default String.eqb dflt d k'.
Proof. intros H. unfold get_default. now rewrite (get_set_other String.eqb String.eqb_eq). Qed.

Lemma load_rows_run rows :
  Forall (fun row => row_fields row <> None) rows ->
  forall w, exists w',
    foldM (fun _ row => load_row row) rows tt w = (Ok tt, w')
    /\ (forall mime,
          get_default String.eqb [] (mime_patterns w') mime
          = (get_default String.eqb [] (mime_patterns w) mime ++ patterns_of_rows rows mime)%list)
    /\ (forall x,
          In x (valid_mimes w')
          <-> In x (valid_mimes w)
              \/ exists row ext, In row rows /\ row_fields row = Some (ext, x))
    /\ cwd w' = cwd w /\ stdout w' = stdout w.
Proof.
  induction 1 as [| row rows Hrow _ IH]; intros w.
  - exists w. simpl. split; [reflexivity |]. split; [| split; [| split; reflexivity]].
    + intros mime. now rewrite app_nil_r.
    + intros x. split; [now left | intros [H | [row [ext [[] _]]]]; exact H].
  - destruct (row_fields row) as [[ext mime] |] eqn:Hf; [| congruence].
    destruct (row_fields_Some _ _ _ Hf) as [e [m [He [Hm [-> ->]]]]].
    pose proof (load_row_run row e m w He Hm) as Hrun.
    set (w1 := mkWorld _ _ _ _ _) in Hrun.
    destruct (IH w1) as [w' [Hfold [Hpat [Hval [Hcwd Hout]]]]].
    exists w'. simpl foldM. rewrite (bind_ok _ _ _ _ _ Hrun).
    split; [exact Hfold |]. split; [| split; [| split; assumption]].
    + intros mime. rewrite Hpat. unfold patterns_of_rows at 2. simpl flat_map.
      rewrite Hf. fold (patterns_of_rows rows mime). unfold w1. simpl mime_patterns.
      destruct (String.eqb (lower (strip m)) mime) eqn:E.
      * apply String.eqb_eq in E. subst mime.
        rewrite get_default_set_same. now rewrite <- app_assoc.
      * apply String.eqb_neq in E. now rewrite get_default_set_other.
    + intros x. rewrite Hval. unfold w1. simpl valid_mimes. rewrite In_add. split.
      * intros [[-> | H] | [r [ext [Hin Hr]]]].
        -- right. exists row, (lower (strip e)). split; [now left | exact Hf].
        -- now left.
        -- right. exists r, ext. split; [now right | exact Hr].
      * intros [H | [r [ext [[<- | Hin] Hr]]]].
        -- left. now right.
        -- rewrite Hf in Hr. injection Hr as _ <-. left. now left.
        -- right. now exists r, ext.
Qed.

(** The MIME types come in [mime_patterns], and so before [match_mime],
    in the order in which the rows of the mapping file first name them. *)
Lemma load_rows_order rows :
  Forall (fun row => row_fields row <> None) rows ->
  forall w,
    keys (mime_patterns w) = valid_mimes w ->
    let w' := snd (foldM (fun _ row => load_row row) rows tt w) in
    keys (mime_patterns w') = mimes_in_order rows (valid_mimes w)
    /\ valid_mimes w' = mimes_in_order rows (valid_mimes w).
Proof.
  induction 1 as [| row rows Hrow _ IH]; intros w Hkeys; [now split |].
  destruct (row_fields row) as [[ext mime] |] eqn:Hf; [| congruence].
  destruct (row_fields_Some _ _ _ Hf) as [e [m [He [Hm [-> ->]]]]].
  pose proof (load_row_run row e m w He Hm) as Hrun.
  set (w1 := mkWorld _ _ _ _ _) in Hrun.
  cbn [foldM]. rewrite (bind_ok _ _ _ _ _ Hrun).
  unfold mimes_in_order. cbn [fold_left]. rewrite Hf.
  apply (IH w1). unfold w1. cbn [mime_patterns valid_mimes].
  now rewrite keys_set, Hkeys.
Qed.

(** C6. For a mapping-file row with both columns, the loader strips and
    lower-cases both fields (in either order), records the pair in
    [ext_to_mime], adds the MIME type to [valid_mimes], and appends to that
    MIME type's pattern list exactly three patterns compiled with
    [re.IGNORECASE], in this order: the extension as a whole word, a text
    ending with the extension, the MIME string as a whole word; a new MIME
    type is appended after the ones already there.  Over a whole mapping
    file, the pattern list of every MIME type is therefore the
    concatenation, in row order, of the triples of the rows naming it. *)
Theorem load_row_three_patterns :
  forall row e m w,
    get String.eqb row "extension" = Some (Some e) ->
    get String.eqb row "mime_type" = Some (Some m) ->
    let ext := lower (strip e) in
    let mime := lower (strip m) in
    let three :=
      [Re.compile [Re.Boundary; Re.Lit ext; Re.Boundary] true;
       Re.compile [Re.DotStar; Re.Lit ext; Re.EndAnchor] true;
       Re.compile [Re.Boundary; Re.Lit mime; Re.Boundary] true] in
    (ext = strip (lower e) /\ mime = strip (lower m))
    /\ load_row row w
       = (Ok tt,
          mkWorld (set String.eqb (ext_to_mime w) ext mime)
                  (set String.eqb (mime_patterns w) mime
                       (get_default String.eqb [] (mime_patterns w) mime ++ three)%list)
                  (add mime (valid_mimes w))
                  (cwd w) (stdout w))
    /\ In mime (add mime (valid_mimes w))
    /\ (forall rows w0,
          Forall (fun r => row_fields r <> None) rows ->
          exists w',
            foldM (fun _ r => load_row r) rows tt w0 = (Ok tt, w')
            /\ forall k,
                get_default String.eqb [] (mime_patterns w') k
                = (get_default String.eqb [] (mime_patterns w0) k ++ patterns_of_rows rows k)%list).
Proof.
  intros row e m w He Hm ext mime three.
  split; [split; apply lower_strip |].
  split; [exact (load_row_run row e m w He Hm) |].
  split; [apply In_add; now left |].
  intros rows w0 Hrows.
  destruct (load_rows_run rows Hrows w0) as [w' [Hfold [Hpat _]]].
  now exists w'.
Qed.

(** ** The classifier *)

(** [match_mime] returns the first MIME type, in the order of
    [mime_patterns], one of whose patterns is found in the entry. *)
Lemma first_match_Some items entry m :
  first_match items entry = Some m <->
  exists before ps after,
    items = (before ++ (m, ps) :: after)%list
    /\ existsb (fun p => Re.search p entry) ps = true
    /\ Forall (fun item => matches entry item = false) before.
Proof.
  split.
  - induction items as [| [k ps] items IH]; simpl; [discriminate |].
    destruct (existsb _ ps) eqn:E.
    + intros [= ->]. exists [], ps, items. repeat split; auto.
    + intros H. destruct (IH H) as [before [ps' [after [-> [Hps Hbefore]]]]].
      exists ((k, ps) :: before), ps', after. repeat split; auto.
  - intros [before [ps [after [-> [Hps Hbefore]]]]].
    induction Hbefore as [| [k ps'] before Hk _ IH]; simpl.
    + now rewrite Hps.
    + unfold matches in Hk. simpl in Hk. now rewrite Hk.
Qed.

Lemma first_match_None items entry :
  first_match items entry = None <-> Forall (fun item => matches entry item = false) items.
Proof.
  induction items as [| [k ps] items IH]; simpl.
  - split; auto.
  - unfold matches at 1. simpl. destruct (existsb _ ps) eqn:E.
    + split; [discriminate |].
      intros H. inversion H as [| ? ? Hk _]. unfold matches in Hk. simpl in Hk. congruence.
    + rewrite IH. split; [intros H; now constructor | intros H; now inversion H].
Qed.

Lemma first_match_key items entry m :
  first_match items entry = Some m -> In m (keys items).
Proof.
  intros H. apply first_match_Some in H.
  destruct H as [before [ps [after [-> _]]]].
  unfold keys. rewrite map_app. apply in_or_app. right. now left.
Qed.

(** ** One row of a count file *)

Lemma process_row_skip b entry rest w :
  row_count (entry :: rest) = None ->
  process_row b (entry :: rest) w = (Ok b, w).
Proof. intros H. unfold process_row. now rewrite H. Qed.

Lemma process_row_valid b entry rest count w :
  row_count (entry :: rest) = Some count ->
  mem entry (valid_mimes w) = true ->
  process_row b (entry :: rest) w = (Ok (add_valid b entry count), w).
Proof.
  intros Hc Hv. unfold process_row. rewrite Hc.
  run_step. now rewrite Hv.
Qed.

Lemma process_row_potential b entry rest count w :
  row_count (entry :: rest) = Some count ->
  mem entry (valid_mimes w) = false ->
  truthy (first_match (mime_patterns w) (normalize_entry entry)) = true ->
  process_row b (entry :: rest) w
  = (Ok (add_potential b (first_match (mime_patterns w) (normalize_entry entry)) entry count), w).
Proof.
  intros Hc Hv Ht. unfold process_row. rewrite Hc.
  run_step. rewrite Hv.
  run_step. rewrite Ht. now run_step.
Qed.

Lemma process_row_invalid b entry rest count w :
  row_count (entry :: rest) = Some count ->
  mem entry (valid_mimes w) = false ->
  truthy (first_match (mime_patterns w) (normalize_entry entry)) = false ->
  process_row b (entry :: rest) w = (Ok (add_invalid b entry count), w).
Proof.
  intros Hc Hv Ht. unfold process_row. rewrite Hc.
  run_step. rewrite Hv.
  run_step. now rewrite Ht.
Qed.

(** The four ways a row that is not blank is handled. *)
Lemma process_row_cases b entry rest w :
  exists b',
    process_row b (entry :: rest) w = (Ok b', w)
    /\ ((row_count (entry :: rest) = None /\ b' = b)
        \/ exists count,
             row_count (entry :: rest) = Some count
             /\ ((mem entry (valid_mimes w) = true /\ b' = add_valid b entry count)
                 \/ (mem entry (valid_mimes w) = false
                     /\ truthy (first_match (mime_patterns w) (normalize_entry entry)) = true
                     /\ b' = add_potential b (first_match (mime_patterns w) (normalize_entry entry))
                                           entry count)
                 \/ (mem entry (valid_mimes w) = false
                     /\ truthy (first_match (mime_patterns w) (normalize_entry entry)) = false
                     /\ b' = add_invalid b entry count))).
Proof.
  destruct (row_count (entry :: rest)) as [count |] eqn:Hc.
  - destruct (mem entry (valid_mimes w)) eqn:Hv.
    + exists (add_valid b entry count). split; [apply process_row_valid; eassumption |].
      right. exists count. auto.
    + destruct (truthy (first_match (mime_patterns w) (normalize_entry entry))) eqn:Ht.
      * eexists. split; [apply process_row_potential; eassumption |].
        right. exists count. split; [reflexivity |]. right. left. auto.
      * eexists. split; [apply process_row_invalid; eassumption |].
        right. exists count. split; [reflexivity |]. right. right. auto.
  - exists b. split; [now apply process_row_skip | now left].
Qed.

(** ** The row loop *)

(** The loop returns exactly when no row after the header is blank; a
    blank row raises [IndexError]. *)
Lemma scan_rows_returns rows :
  Forall (fun row => row <> []) rows ->
  forall b w, exists b', foldM process_row rows b w = (Ok b', w).
Proof.
  induction 1 as [| row rows Hrow _ IH]; intros b w; simpl.
  - now exists b.
  - destruct row as [| entry rest]; [congruence |].
    destruct (process_row_cases b entry rest w) as [b1 [Hrun _]].
    destruct (IH b1 w) as [b' Hb']. exists b'.
    now rewrite (bind_ok _ _ _ _ _ Hrun).
Qed.

Lemma scan_rows_blank rows b w :
  Exists (fun row => row = []) rows ->
  foldM process_row rows b w = (Raise IndexError, w).
Proof.
  intros H. revert b. induction H as [row rows Hrow | row rows _ IH]; intros b; simpl.
  - subst row. reflexivity.
  - destruct row as [| entry rest]; [reflexivity |].
    destruct (process_row_cases b entry rest w) as [b1 [Hrun _]].
    rewrite (bind_ok _ _ _ _ _ Hrun). apply IH.
Qed.

(** An invariant of the loop body is an invariant of the loop. *)
Lemma scan_rows_invariant (P : buckets -> Prop) w :
  (forall b entry rest b', P b -> process_row b (entry :: rest) w = (Ok b', w) -> P b') ->
  forall rows b b', P b -> fst (foldM process_row rows b w) = Ok b' -> P b'.
Proof.
  intros Hstep. induction rows as [| row rows IH]; intros b b' Hb; simpl.
  - intros [= <-]. exact Hb.
  - destruct row as [| entry rest]; [discriminate |].
    destruct (process_row_cases b entry rest w) as [b1 [Hrun _]].
    rewrite (bind_ok _ _ _ _ _ Hrun). apply IH. eapply Hstep; eauto.
Qed.

Lemma scan_counts_run input_file rows w :
  get String.eqb (cwd w) input_file = Some rows ->
  scan_counts input_file w = foldM process_row (tl rows) empty_buckets w.
Proof.
  intros H. unfold scan_counts, open_read.
  unfold bind at 1. unfold bind at 1. unfold gets. now rewrite H.
Qed.

Lemma sum_counts_run input_file rows w :
  get String.eqb (cwd w) input_file = Some rows ->
  sum_counts (Some input_file) w = (Ok (count_total (tl rows) 0), w).
Proof.
  intros H. unfold sum_counts, open_read.
  unfold bind at 1. unfold bind at 1. unfold gets. now rewrite H.
Qed.

(** ** Buckets and totals *)

Lemma bucket_total_add_valid b entry count :
  bucket_total (add_valid b entry count) = bucket_total b + count.
Proof. unfold bucket_total. simpl. lia. Qed.

Lemma bucket_total_add_potential b k entry count :
  bucket_total (add_potential b k entry count) = bucket_total b + count.
Proof. unfold bucket_total. simpl. lia. Qed.

Lemma bucket_total_add_invalid b entry count :
  bucket_total (add_invalid b entry count) = bucket_total b + count.
Proof. unfold bucket_total. simpl. lia. Qed.

(** Every row that [process_counts] gets through moves the three bucket
    totals and the running total of [sum_counts] by the same amount. *)
Lemma scan_rows_total rows w :
  forall b b' t,
    fst (foldM process_row rows b w) = Ok b' ->
    bucket_total b = t ->
    bucket_total b' = count_total rows t.
Proof.
  induction rows as [| row rows IH]; intros b b' t; simpl.
  - intros [= <-]. auto.
  - destruct row as [| entry rest]; [discriminate |].
    destruct (process_row_cases b entry rest w) as [b1 [Hrun Hcase]].
    rewrite (bind_ok _ _ _ _ _ Hrun). intros Hfold Ht.
    apply (IH b1 b' _ Hfold).
    destruct Hcase as [[Hc ->] | [count [Hc Hcase]]]; rewrite Hc; [exact Ht |].
    destruct Hcase as [[_ ->] | [[_ [_ ->]] | [_ [_ ->]]]];
      rewrite ?bucket_total_add_valid, ?bucket_total_add_potential,
        ?bucket_total_add_invalid; lia.
Qed.

(** X21. The sum invariant, for every count file [process_counts] gets
    through, and it gets through every file without a blank row: the three
    bucket totals of a scan that returns add up to the total of
    [sum_counts] on the same file. *)
Lemma sum_invariant input_file rows w :
  get String.eqb (cwd w) input_file = Some rows ->
  (forall b,
      fst (scan_counts input_file w) = Ok b ->
      fst (sum_counts (Some input_file) w) = Ok (bucket_total b))
  /\ (Forall (fun row => row <> []) (tl rows) ->
      exists b, scan_counts input_file w = (Ok b, w)).
Proof.
  intros Hget. rewrite (scan_counts_run _ _ _ Hget), (sum_counts_run _ _ _ Hget). split.
  - intros b Hb. simpl. f_equal. symmetry. now apply (scan_rows_total _ _ _ _ _ Hb).
  - intros Hrows. apply scan_rows_returns, Hrows.
Qed.

(** A row with an entry whose count is missing or is not an integer leaves
    every bucket and the total of [sum_counts] as they were. *)
Lemma unparsable_row_skipped b entry rest w t :
  row_count (entry :: rest) = None ->
  process_row b (entry :: rest) w = (Ok b, w)
  /\ count_total [entry :: rest] t = t.
Proof.
  intros H. split; [now apply process_row_skip |].
  unfold count_total. simpl fold_left. now rewrite H.
Qed.

(** ** Entries that are known MIME types *)

Lemma get_default_incr_same (d : list (string * Z)) k n :
  get_default String.eqb 0 (incr String.eqb d k n) k = get_default String.eqb 0 d k + n.
Proof. unfold incr. now rewrite get_default_set_same. Qed.

Lemma get_default_incr_other (d : list (string * Z)) k k' n :
  k <> k' ->
  get_default String.eqb 0 (incr String.eqb d k n) k' = get_default String.eqb 0 d k'.
Proof. intros H. unfold incr. now rewrite get_default_set_other. Qed.

Lemma keys_set_In {K V} (eqb : K -> K -> bool) (d : list (K * V)) k v k' :
  (forall a b, eqb a b = true <-> a = b) ->
  In k' (keys (set eqb d k v)) -> k' = k \/ In k' (keys d).
Proof.
  intros Hspec. unfold keys. rewrite !in_map_iff.
  intros [[k0 v0] [<- Hin]]. simpl.
  destruct (In_set eqb Hspec _ _ _ _ _ Hin) as [[-> _] | H]; [now left |].
  right. now exists (k0, v0).
Qed.

Lemma untouched_step e w b entry rest b' :
  mem e (valid_mimes w) = true ->
  untouched_by e b ->
  process_row b (entry :: rest) w = (Ok b', w) ->
  untouched_by e b'.
Proof.
  intros He [Hi [Him Hp]] Hrun.
  destruct (process_row_cases b entry rest w) as [b1 [Hrun' Hcase]].
  rewrite Hrun in Hrun'. injection Hrun' as <-.
  destruct Hcase as [[_ ->] | [count [_ Hcase]]]; [now repeat split |].
  destruct Hcase as [[_ ->] | [[Hv [_ ->]] | [Hv [_ ->]]]].
  - now repeat split.
  - assert (Hne : entry <> e) by congruence.
    split; [exact Hi |]. split; [exact Him |]. simpl. intros k l Hin.
    apply (In_set okey_eqb okey_eqb_spec) in Hin.
    destruct Hin as [[-> ->] | Hin]; [| now apply (Hp k l)].
    rewrite in_app_iff. intros [H | [H | []]]; [| congruence].
    unfold get_default in H.
    destruct (get okey_eqb (potential_entry_map b) _) as [l |] eqn:Hget; [| exact H].
    apply (get_In okey_eqb okey_eqb_spec) in Hget. now apply (Hp _ _ Hget).
  - assert (Hne : entry <> e) by congruence.
    split; [| split; [| exact Hp]]; simpl; intros Hin;
      apply (keys_set_In String.eqb) in Hin; try apply String.eqb_eq;
      destruct Hin as [-> | Hin]; auto.
Qed.

Lemma valid_amount_step e w rows :
  mem e (valid_mimes w) = true ->
  forall b b',
    fst (foldM process_row rows b w) = Ok b' ->
    get_default String.eqb 0 (valid_mime_aggregate b') e
    = get_default String.eqb 0 (valid_mime_aggregate b) e + total_for e rows.
Proof.
  intros He. induction rows as [| row rows IH]; intros b b'; simpl.
  - intros [= <-]. lia.
  - destruct row as [| entry rest]; [discriminate |].
    destruct (process_row_cases b entry rest w) as [b1 [Hrun Hcase]].
    rewrite (bind_ok _ _ _ _ _ Hrun). intros Hfold.
    rewrite (IH b1 b' Hfold).
    destruct Hcase as [[Hc ->] | [count [Hc Hcase]]]; rewrite Hc; [reflexivity |].
    destruct (String.eqb entry e) eqn:E.
    + apply String.eqb_eq in E. subst entry.
      destruct Hcase as [[_ ->] | [[Hv _] | [Hv _]]]; try congruence.
      simpl valid_mime_aggregate. rewrite get_default_incr_same. lia.
    + apply String.eqb_neq in E.
      destruct Hcase as [[_ ->] | [[_ [_ ->]] | [_ [_ ->]]]]; simpl valid_mime_aggregate;
        rewrite ?get_default_incr_other by exact E; reflexivity.
Qed.

(** C3. A row whose entry is a member of [valid_mimes] and whose count is
    an integer goes to the valid bucket: its count is added under that
    entry and to the valid total, and the potential and invalid buckets
    stay as they were.  Over a whole count file that [process_counts] gets
    through, the valid bucket holds under a known MIME type the sum of the
    counts of the rows with that entry, and that entry is neither a key of
    the invalid bucket nor in an entry list of the potential bucket. *)
Theorem known_mime_goes_to_valid :
  forall w e,
    mem e (valid_mimes w) = true ->
    (forall b rest count,
        row_count (e :: rest) = Some count ->
        exists b',
          process_row b (e :: rest) w = (Ok b', w)
          /\ get_default String.eqb 0 (valid_mime_aggregate b') e
             = get_default String.eqb 0 (valid_mime_aggregate b) e + count
          /\ valid_mime_sum b' = valid_mime_sum b + count
          /\ potential_mime_aggregate b' = potential_mime_aggregate b
          /\ potential_entry_map b' = potential_entry_map b
          /\ possible_mime_sum b' = possible_mime_sum b
          /\ invalid_mime_aggregate b' = invalid_mime_aggregate b
          /\ invalid_entry_map b' = invalid_entry_map b
          /\ invalid_mime_sum b' = invalid_mime_sum b)
    /\ (forall input_file rows b,
          get String.eqb (cwd w) input_file = Some rows ->
          fst (scan_counts input_file w) = Ok b ->
          get_default String.eqb 0 (valid_mime_aggregate b) e = total_for e (tl rows)
          /\ ~ In e (keys (invalid_mime_aggregate b))
          /\ forall k l, In (k, l) (potential_entry_map b) -> ~ In e l).
Proof.
  intros w e He. split.
  - intros b rest count Hc. exists (add_valid b e count).
    split; [now apply process_row_valid |].
    simpl. rewrite get_default_incr_same. repeat split.
  - intros input_file rows b Hget. rewrite (scan_counts_run _ _ _ Hget). intros Hb.
    split.
    + now rewrite (valid_amount_step e w _ He _ _ Hb).
    + assert (H : untouched_by e b).
      { apply (scan_rows_invariant (untouched_by e) w) with (rows := tl rows) (b := empty_buckets).
        - intros b0 entry rest b' Hb0 Hrun. now apply (untouched_step e w b0 entry rest).
        - repeat split; simpl; auto.
        - exact Hb. }
      destruct H as [Hi [_ Hp]]. now split.
Qed.

(** ** The whole-word pattern of a MIME type *)

Lemma char_eq_refl ic c : Re.char_eq ic c c = true.
Proof. unfold Re.char_eq. destruct ic; apply Ascii.eqb_refl. Qed.

Lemma last_char_cons a s : exists c, last_char (String a s) = Some c.
Proof.
  revert a. induction s as [| b s IH]; intros a; [now exists a |].
  destruct (IH b) as [c Hc]. exists c. exact Hc.
Qed.

Lemma eat_self ic l : forall prev rest,
  Re.eat ic l prev (l ++ rest)
  = Some (match last_char l with Some c => Some c | None => prev end, rest).
Proof.
  induction l as [| c l IH]; intros prev rest; simpl; [reflexivity |].
  rewrite char_eq_refl, IH. destruct l as [| a l]; [reflexivity |].
  destruct (last_char_cons a l) as [c' Hc]. now rewrite Hc.
Qed.

Lemma append_empty s : s ++ "" = s.
Proof. induction s as [| c s IH]; simpl; [reflexivity | now rewrite IH]. Qed.

(** A text that begins and ends with a word character is found by its own
    whole-word pattern. *)
Lemma word_pattern_finds_itself m :
  Re.is_word_opt (Re.head m) = true ->
  Re.is_word_opt (last_char m) = true ->
  Re.search (word_pattern m) m = true.
Proof.
  intros Hh Hl. unfold Re.search, word_pattern. simpl Re.atoms. simpl Re.ignorecase.
  assert (H : Re.match_here true [Re.Boundary; Re.Lit m; Re.Boundary] None m = true).
  { simpl. pose proof (eat_self true m None "") as He. rewrite append_empty in He.
    rewrite He. unfold Re.boundary. simpl Re.is_word_opt at 1. rewrite Hh. simpl.
    destruct (last_char m) as [c |]; [| discriminate].
    simpl Re.is_word_opt in *. now rewrite Hl. }
  destruct m; simpl; simpl in H; now rewrite H.
Qed.

Lemma head_lower s : Re.is_word_opt (Re.head (lower s)) = Re.is_word_opt (Re.head s).
Proof. destruct s; simpl; [reflexivity | apply is_word_lower_char]. Qed.

Lemma last_char_lower s :
  Re.is_word_opt (last_char (lower s)) = Re.is_word_opt (last_char s).
Proof.
  induction s as [| c s IH]; simpl; [reflexivity |].
  destruct s; simpl in *; [apply is_word_lower_char | exact IH].
Qed.

(** ** What loading keeps true of the tables *)

Lemma foldM_world_invariant {A B} (I : world -> Prop) (body : A -> B -> M A) :
  (forall a x w, I w -> I (snd (body a x w))) ->
  forall l a w, I w -> I (snd (foldM body l a w)).
Proof.
  intros Hbody. induction l as [| x l IH]; intros a w Hw; simpl; [exact Hw |].
  unfold bind. specialize (Hbody a x w Hw).
  destruct (body a x w) as [[a' | e] w']; simpl in *; auto.
Qed.

Lemma load_row_wf row w : tables_wf w -> tables_wf (snd (load_row row w)).
Proof.
  intros Hwf.
  destruct (get String.eqb row "extension") as [[e |] |] eqn:He;
    [| unfold load_row, subscript; rewrite He; exact Hwf
     | unfold load_row, subscript; rewrite He; exact Hwf].
  destruct (get String.eqb row "mime_type") as [[m |] |] eqn:Hm;
    [| unfold load_row, subscript; rewrite He, Hm; exact Hwf
     | unfold load_row, subscript; rewrite He, Hm; exact Hwf].
  rewrite (load_row_run row e m w He Hm). simpl snd.
  destruct Hwf as [Hkeys [Hlow Hpat]].
  split; [| split]; simpl.
  - now rewrite keys_set, Hkeys.
  - intros x Hx. apply In_add in Hx. destruct Hx as [-> | Hx]; [apply lower_idem | auto].
  - intros k ps. destruct (String.eqb (lower (strip m)) k) eqn:E.
    + apply String.eqb_eq in E. subst k.
      rewrite (get_set_same String.eqb String.eqb_eq). intros [= <-].
      apply in_or_app. right. simpl. auto.
    + apply String.eqb_neq in E.
      rewrite (get_set_other String.eqb String.eqb_eq) by exact E. apply Hpat.
Qed.

Lemma load_mime_mapping_wf path w :
  tables_wf w -> tables_wf (snd (load_mime_mapping path w)).
Proof.
  intros Hwf. unfold load_mime_mapping.
  unfold bind at 1.
  pose proof (open_read_reads (Some path) w) as Hr. cbv beta in Hr.
  destruct (open_read (Some path) w) as [[rows | e] w']; simpl in Hr; subst w'.
  - apply foldM_world_invariant; [| exact Hwf].
    intros _ row w0. apply load_row_wf.
  - exact Hwf.
Qed.

Lemma start_wf dir : tables_wf (start dir).
Proof. repeat split; simpl; try contradiction; discriminate. Qed.

(** ** Entries that match a pattern *)

(** An entry that is no known MIME type and whose first matching MIME type
    is not the empty string goes to the potential bucket: its count is
    added under that MIME type and its text, as it stands in the file, is
    appended to that MIME type's entry list. *)
Lemma matched_entry_goes_to_potential w b entry rest count m :
  row_count (entry :: rest) = Some count ->
  mem entry (valid_mimes w) = false ->
  first_match (mime_patterns w) (normalize_entry entry) = Some m ->
  m <> "" ->
  exists b',
    process_row b (entry :: rest) w = (Ok b', w)
    /\ get_default okey_eqb 0 (potential_mime_aggregate b') (Some m)
       = get_default okey_eqb 0 (potential_mime_aggregate b) (Some m) + count
    /\ get_default okey_eqb [] (potential_entry_map b') (Some m)
       = (get_default okey_eqb [] (potential_entry_map b) (Some m) ++ [entry])%list
    /\ possible_mime_sum b' = possible_mime_sum b + count.
Proof.
  intros Hc Hv Hm Hne. exists (add_potential b (Some m) entry count). split.
  - rewrite <- Hm. apply process_row_potential; auto.
    rewrite Hm. destruct m; [congruence | reflexivity].
  - simpl. unfold incr, append_to.
    split; [| split; [| reflexivity]]; unfold get_default at 1;
      now rewrite (get_set_same okey_eqb okey_eqb_spec).
Qed.

(** C2. [match_mime] goes through [mime_patterns] in insertion order and
    returns the first MIME type one of whose patterns is found, which may
    be the empty string; the caller tests the result for truth.  With the
    mapping row [jpg,] (an empty MIME type) the entry [myfilejpg] is no
    known MIME type and matches the pattern [.*jpg$], [match_mime] returns
    the empty string for it, and the row is counted in the invalid bucket:
    nothing is attributed to the matching MIME type. *)
Theorem empty_mime_match_counted_invalid :
  let w := loaded empty_mime_mapping [] in
  mem "myfilejpg" (valid_mimes w) = false
  /\ existsb (fun p => Re.search p (normalize_entry "myfilejpg"))
             (get_default String.eqb [] (mime_patterns w) "") = true
  /\ match_mime (normalize_entry "myfilejpg") w = (Ok (Some ""), w)
  /\ process_row empty_buckets ["myfilejpg"; "3"] w
     = (Ok (add_invalid empty_buckets "myfilejpg" 3), w)
  /\ potential_mime_aggregate (add_invalid empty_buckets "myfilejpg" 3) = [].
Proof. vm_compute. repeat split. Qed.

(** ** Entries in upper case *)

(** The claim of C7 fails for the MIME type [text/x-c++]: the entry
    [TEXT/X-C++] equals it after lower-casing only, yet no pattern finds
    it (the whole-word pattern needs a word character at its end), and the
    row is counted as invalid, not as a potential match. *)
Lemma uppercase_mime_counted_invalid :
  let w := loaded cpp_mapping [] in
  In (lower "TEXT/X-C++") (valid_mimes w)
  /\ "TEXT/X-C++" <> lower "TEXT/X-C++"
  /\ process_row empty_buckets ["TEXT/X-C++"; "4"] w
     = (Ok (add_invalid empty_buckets "TEXT/X-C++" 4), w)
  /\ potential_mime_aggregate (add_invalid empty_buckets "TEXT/X-C++" 4) = []
  /\ invalid_mime_aggregate (add_invalid empty_buckets "TEXT/X-C++" 4) = [("TEXT/X-C++", 4)].
Proof.
  vm_compute. repeat split; try discriminate. now left.
Qed.

(** C7 (amended). After loading, an entry that is a known MIME type only
    once lower-cased is never counted as valid: the row leaves the valid
    bucket as it was.  When the entry begins and ends with a word character
    and no MIME type of the mapping is the empty string, [match_mime] finds
    a MIME type for the lower-cased entry and the row is counted in the
    potential bucket under it. *)
Theorem uppercase_mime_not_valid :
  forall dir path entry rest count b,
    let w := snd (load_mime_mapping path (start dir)) in
    In (lower entry) (valid_mimes w) ->
    entry <> lower entry ->
    row_count (entry :: rest) = Some count ->
    mem entry (valid_mimes w) = false
    /\ (exists b',
          process_row b (entry :: rest) w = (Ok b', w)
          /\ valid_mime_aggregate b' = valid_mime_aggregate b
          /\ valid_entry_map b' = valid_entry_map b
          /\ valid_mime_sum b' = valid_mime_sum b)
    /\ (Re.is_word_opt (Re.head entry) = true ->
        Re.is_word_opt (last_char entry) = true ->
        ~ In "" (valid_mimes w) ->
        exists m,
          first_match (mime_patterns w) (normalize_entry entry) = Some m
          /\ process_row b (entry :: rest) w
             = (Ok (add_potential b (Some m) entry count), w)).
Proof.
  intros dir path entry rest count b w Hin Hne Hc.
  assert (Hwf : tables_wf w) by apply load_mime_mapping_wf, start_wf.
  destruct Hwf as [Hkeys [Hlow Hpat]].
  assert (Hv : mem entry (valid_mimes w) = false).
  { destruct (mem entry (valid_mimes w)) eqn:E; [| reflexivity].
    apply mem_In in E. apply Hlow in E. congruence. }
  split; [exact Hv |]. split.
  - destruct (process_row_cases b entry rest w) as [b' [Hrun Hcase]].
    exists b'. split; [exact Hrun |].
    destruct Hcase as [[_ ->] | [c [_ [[Hv' _] | [[_ [_ ->]] | [_ [_ ->]]]]]]];
      try congruence; repeat split.
  - intros Hh Hl Hempty.
    destruct (get String.eqb (mime_patterns w) (lower entry)) as [ps |] eqn:Hget.
    2:{ apply (get_None_keys String.eqb String.eqb_eq) in Hget. now rewrite Hkeys in Hget. }
    assert (Hsearch : existsb (fun p => Re.search p (lower entry)) ps = true).
    { apply existsb_exists. exists (word_pattern (lower entry)).
      split; [now apply Hpat |].
      apply word_pattern_finds_itself; now rewrite ?head_lower, ?last_char_lower. }
    destruct (first_match (mime_patterns w) (normalize_entry entry)) as [m |] eqn:Hm.
    + exists m. split; [reflexivity |].
      rewrite <- Hm. apply process_row_potential; auto. rewrite Hm.
      destruct m; [| reflexivity].
      apply first_match_key in Hm. now rewrite Hkeys in Hm.
    + exfalso. apply first_match_None in Hm. rewrite Forall_forall in Hm.
      apply (get_In String.eqb String.eqb_eq) in Hget.
      specialize (Hm _ Hget). unfold matches, normalize_entry in Hm. simpl in Hm. congruence.
Qed.

(** An instance: [Image/JPEG] against the mapping row [jpg,image/jpeg]. *)
Lemma uppercase_mime_not_valid_witness :
  let w := snd (load_mime_mapping "mimeTypes.csv" (start [("mimeTypes.csv", jpg_mapping)])) in
  (In (lower "Image/JPEG") (valid_mimes w)
   /\ "Image/JPEG" <> lower "Image/JPEG"
   /\ row_count ["Image/JPEG"; "7"] = Some 7)
  /\ mem "Image/JPEG" (valid_mimes w) = false
  /\ exists m,
       first_match (mime_patterns w) (normalize_entry "Image/JPEG") = Some m
       /\ process_row empty_buckets ["Image/JPEG"; "7"] w
          = (Ok (add_potential empty_buckets (Some m) "Image/JPEG" 7), w).
Proof.
  intros w.
  assert (H1 : In (lower "Image/JPEG") (valid_mimes w)) by (vm_compute; now left).
  assert (H2 : "Image/JPEG" <> lower "Image/JPEG") by (vm_compute; discriminate).
  assert (H3 : row_count ["Image/JPEG"; "7"] = Some 7) by reflexivity.
  split; [now repeat split |].
  destruct (uppercase_mime_not_valid [("mimeTypes.csv", jpg_mapping)] "mimeTypes.csv"
              "Image/JPEG" ["7"] 7 empty_buckets H1 H2 H3) as [Hv [_ Hp]].
  split; [exact Hv |].
  apply Hp; [reflexivity | reflexivity |].
  vm_compute. intros [H | []]. discriminate.
Defined.

(** ** Blank rows *)

(** The scenario of the sum invariant: with the mapping row
    [jpg,image/jpeg], the four rows give 5 in the valid bucket, 3 in the
    potential bucket under [image/jpeg], 2 in the invalid bucket, and
    [sum_counts] returns 10; the row [badrow,x] adds nothing. *)
Lemma sum_scenario :
  let w := loaded jpg_mapping [(us_counts, scenario_counts)] in
  exists b,
    scan_counts us_counts w = (Ok b, w)
    /\ valid_mime_sum b = 5
    /\ possible_mime_sum b = 3
    /\ potential_mime_aggregate b = [(Some "image/jpeg", 3)]
    /\ invalid_mime_sum b = 2
    /\ sum_counts (Some us_counts) w = (Ok 10, w).
Proof. eexists. vm_compute. repeat split. Qed.

(** C4. On a count file with a blank line, [sum_counts] passes over the
    blank row and returns the total, 9, while [process_counts] raises
    [IndexError] at that row: no bucket total is computed, no report is
    written and nothing is printed. *)
Theorem blank_row_breaks_sum_invariant :
  let w := loaded jpg_mapping [(us_counts, counts_with_blank)] in
  sum_counts (Some us_counts) w = (Ok 9, w)
  /\ process_counts us_counts "mime-type-mapping-US.csv" "valid-mime-type-mapping-US.csv"
       "invalid-mime-type-mapping-US.csv" w
     = (Raise IndexError, w).
Proof. vm_compute. split; reflexivity. Qed.

(** C5. A blank row, the shortest row with no count field, is not passed
    over by the loop of [process_counts]: its body raises [IndexError] on
    it, whatever the buckets and the tables, though the row has no count
    for [sum_counts].  A run of [main] on a directory whose US count file
    has a blank line ends there with [IndexError]: the rows before it are
    lost, no report is written and nothing is printed. *)
Theorem blank_row_raises_index_error :
  (forall b w, process_row b [] w = (Raise IndexError, w))
  /\ row_count [] = None
  /\ (let r := main (start [("mimeTypes.csv", jpg_mapping); (us_counts, counts_with_blank)]) in
      fst r = Raise IndexError
      /\ stdout (snd r) = []
      /\ cwd (snd r) = [("mimeTypes.csv", jpg_mapping); (us_counts, counts_with_blank)]).
Proof.
  split; [reflexivity |]. split; [reflexivity |].
  vm_compute. repeat split.
Qed.

(** ** A missing count file *)

Lemma foldM_ext {A B} (f g : A -> B -> M A) :
  (forall a x w, f a x w = g a x w) ->
  forall l a w, foldM f l a w = foldM g l a w.
Proof.
  intros H. induction l as [| x l IH]; intros a w; simpl; [reflexivity |].
  unfold bind. rewrite H. destruct (g a x w) as [[a' | e] w']; [apply IH | reflexivity].
Qed.

Lemma main_step_run not_found total_count infile p v i w :
  main_step not_found total_count (infile, p, v, i) w
  = match option_map fst (find (fun f => String.eqb (lower (fst f)) (lower infile)) (cwd w)) with
    | Some path =>
        bind (sum_counts (Some path))
             (fun n => bind (process_counts path p v i) (fun _ => ret (total_count + n))) w
    | None => (Raise TypeError, w)
    end.
Proof.
  unfold main_step, find_file. run_step.
  destruct (option_map fst _) as [path |]; reflexivity.
Qed.

(** X22. The [else] branch of the loop of [main] is never reached: whatever
    stands there, the run is the same, because [sum_counts] has raised
    [TypeError] on the missing path before the test. *)
Lemma not_found_branch_unreachable not_found w :
  main_with not_found w = main w.
Proof.
  unfold main, main_with.
  apply bind_ext. intros _ w1.
  apply bind_ext_left, foldM_ext.
  intros t [[[infile p] v] i] w0. now rewrite !main_step_run.
Qed.

(** C1. In a directory without the EU count file, [find_file] returns
    [None] for it and [sum_counts] raises [TypeError] on that path: the run
    ends there.  The US reports are written and their three lines printed;
    [File not found] is not printed, and the global file is not read. *)
Theorem missing_count_file_aborts :
  let r := main (start dir_without_eu) in
  fst (find_file eu_counts (start dir_without_eu)) = Ok None
  /\ fst (sum_counts None (start dir_without_eu)) = Raise TypeError
  /\ fst r = Raise TypeError
  /\ stdout (snd r)
     = [ "Sum of counts for possible mime type matches for us-only: 0" ++ newline;
         "Sum of counts for valid mime type matches for us-only: 5" ++ newline;
         "Sum of counts for invalid mime type matches for us-only: 0" ++ newline ]
  /\ ~ In ("File not found: " ++ eu_counts) (stdout (snd r))
  /\ keys (cwd (snd r))
     = [ "mimeTypes.csv"; us_counts; global_counts; "mime-type-mapping-US.csv";
         "valid-mime-type-mapping-US.csv"; "invalid-mime-type-mapping-US.csv" ].
Proof.
  vm_compute. repeat split.
  intros [H | [H | [H | []]]]; discriminate.
Qed.

(** ** The environment in a file name *)

Lemma drop_prefix_Some p : forall s r, drop_prefix p s = Some r <-> s = p ++ r.
Proof.
  induction p as [| a p IH]; intros s r; simpl.
  - split; [now intros [= ->] | now intros ->].
  - destruct s as [| b s]; [split; discriminate |].
    destruct (Ascii.eqb a b) eqn:E.
    + apply Ascii.eqb_eq in E. subst b. rewrite IH. split; [now intros -> | now intros [= ->]].
    + split; [discriminate |]. intros [= <- _]. now rewrite Ascii.eqb_refl in E.
Qed.

Lemma drop_prefix_append p r : drop_prefix p (p ++ r) = Some r.
Proof. now apply drop_prefix_Some. Qed.

Lemma lazy_until_step suffix s :
  lazy_until suffix s
  = match drop_prefix suffix s with
    | Some _ => Some ""
    | None =>
        match s with
        | EmptyString => None
        | String c s' =>
            if Ascii.eqb c "010" then None else option_map (String c) (lazy_until suffix s')
        end
    end.
Proof. destruct s; reflexivity. Qed.

Lemma lazy_until_sound suffix : forall s env,
  lazy_until suffix s = Some env ->
  has_char "010" env = false /\ exists post, s = env ++ suffix ++ post.
Proof.
  induction s as [| c s IH]; intros env; rewrite lazy_until_step.
  - destruct (drop_prefix suffix "") as [r |] eqn:E; [| discriminate].
    intros [= <-]. split; [reflexivity |]. exists r. simpl. now apply drop_prefix_Some.
  - destruct (drop_prefix suffix (String c s)) as [r |] eqn:E.
    + intros [= <-]. split; [reflexivity |]. exists r. simpl. now apply drop_prefix_Some.
    + destruct (Ascii.eqb c "010") eqn:Hc; [discriminate |].
      destruct (lazy_until suffix s) as [env' |] eqn:Hl; [| discriminate].
      intros [= <-]. destruct (IH env' eq_refl) as [Hn [post ->]].
      split; [simpl; now rewrite Hc | now exists post].
Qed.

Lemma lazy_until_complete suffix post : forall env,
  has_char "010" env = false ->
  lazy_until suffix (env ++ suffix ++ post) <> None.
Proof.
  induction env as [| c env IH]; intros Hn; rewrite lazy_until_step.
  - simpl. now rewrite drop_prefix_append.
  - simpl in Hn. apply orb_false_elim in Hn. destruct Hn as [Hc Hn].
    destruct (drop_prefix suffix (String c env ++ suffix ++ post)); [discriminate |].
    simpl. rewrite Hc. specialize (IH Hn).
    destruct (lazy_until suffix (env ++ suffix ++ post)); [discriminate | congruence].
Qed.

Lemma search_env_step s :
  search_env s
  = match
      match drop_prefix "prod-" s with
      | Some r => lazy_until "-mime-types-counts.csv" r
      | None => None
      end
    with
    | Some env => Some env
    | None =>
        match s with
        | EmptyString => None
        | String _ s' => search_env s'
        end
    end.
Proof. destruct s; reflexivity. Qed.

Lemma search_env_sound : forall s env,
  search_env s = Some env ->
  has_char "010" env = false
  /\ exists pre post, s = pre ++ "prod-" ++ env ++ "-mime-types-counts.csv" ++ post.
Proof.
  induction s as [| c s IH]; intros env; rewrite search_env_step.
  - destruct (drop_prefix "prod-" "") eqn:E; simpl in E; discriminate.
  - destruct (drop_prefix "prod-" (String c s)) as [r |] eqn:E.
    + destruct (lazy_until "-mime-types-counts.csv" r) as [env' |] eqn:Hl.
      * intros [= <-]. apply lazy_until_sound in Hl. destruct Hl as [Hn [post ->]].
        split; [exact Hn |]. exists "", post. now apply drop_prefix_Some in E.
      * intros H. destruct (IH env H) as [Hn [pre [post ->]]].
        split; [exact Hn |]. now exists (String c pre), post.
    + intros H. destruct (IH env H) as [Hn [pre [post ->]]].
      split; [exact Hn |]. now exists (String c pre), post.
Qed.

Lemma search_env_complete env post : forall pre,
  has_char "010" env = false ->
  search_env (pre ++ "prod-" ++ env ++ "-mime-types-counts.csv" ++ post) <> None.
Proof.
  induction pre as [| c pre IH]; intros Hn; rewrite search_env_step.
  - change ("" ++ "prod-" ++ env ++ "-mime-types-counts.csv" ++ post)
      with ("prod-" ++ (env ++ "-mime-types-counts.csv" ++ post)).
    rewrite drop_prefix_append.
    pose proof (lazy_until_complete "-mime-types-counts.csv" post env Hn) as H.
    destruct (lazy_until _ _); [discriminate | congruence].
  - destruct (match drop_prefix "prod-" _ with Some _ => _ | None => _ end); [discriminate |].
    apply IH, Hn.
Qed.

(** No dot stands before the extension in [-mime-types-counts.csv]. *)
Lemma suffix_dot_free k :
  (k < 18)%nat -> String.get k "-mime-types-counts.csv" <> Some "."%char.
Proof.
  intros H. do 18 (destruct k as [| k]; [discriminate |]). lia.
Qed.

Lemma has_char_get c s : forall k, has_char c s = false -> String.get k s <> Some c.
Proof.
  induction s as [| a s IH]; intros k H; [now destruct k |].
  simpl in H. apply orb_false_elim in H. destruct H as [Ha Hs].
  destruct k as [| k]; simpl.
  - intros [= ->]. now rewrite Ascii.eqb_refl in Ha.
  - now apply IH.
Qed.

Lemma get_append_left a b : forall k,
  (k < String.length a)%nat -> String.get k (a ++ b) = String.get k a.
Proof.
  induction a as [| x a IH]; intros k H; simpl in *; [lia |].
  destruct k as [| k]; [reflexivity | apply IH; lia].
Qed.

Lemma get_append_right a b : forall k,
  (String.length a <= k)%nat -> String.get k (a ++ b) = String.get (k - String.length a) b.
Proof.
  induction a as [| x a IH]; intros k H; simpl in *; [now rewrite Nat.sub_0_r |].
  destruct k as [| k]; [lia | apply IH; lia].
Qed.

(** The suffix does not start inside an environment name without a dot. *)
Lemma suffix_not_inside c env :
  has_char "." (String c env) = false ->
  drop_prefix "-mime-types-counts.csv" (String c env ++ "-mime-types-counts.csv") = None.
Proof.
  intros Hdot.
  destruct (drop_prefix _ _) as [r |] eqn:E; [exfalso | reflexivity].
  apply drop_prefix_Some in E.
  assert (Hget : String.get 18 (String c env ++ "-mime-types-counts.csv") = Some "."%char).
  { rewrite E. reflexivity. }
  destruct (Nat.lt_ge_cases 18 (String.length (String c env))) as [Hlt | Hge].
  - rewrite get_append_left in Hget by exact Hlt.
    now apply (has_char_get _ _ 18) in Hdot.
  - rewrite get_append_right in Hget by exact Hge.
    apply (suffix_dot_free (18 - String.length (String c env))); [| exact Hget].
    cbn [String.length]. lia.
Qed.

Lemma lazy_until_exact : forall env,
  has_char "010" env = false ->
  has_char "." env = false ->
  lazy_until "-mime-types-counts.csv" (env ++ "-mime-types-counts.csv") = Some env.
Proof.
  induction env as [| c env IH]; intros Hn Hd; [reflexivity |].
  rewrite lazy_until_step, (suffix_not_inside c env Hd).
  simpl in Hn, Hd. apply orb_false_elim in Hn, Hd.
  destruct Hn as [Hc Hn], Hd as [_ Hd].
  change (String c env ++ "-mime-types-counts.csv")
    with (String c (env ++ "-mime-types-counts.csv")).
  cbv iota. rewrite Hc, (IH Hn Hd). reflexivity.
Qed.

(** C8. [extract_env] gives [eu-only] for the EU count file, and likewise
    the environment of the two other files; from a name
    [prod-<ENV>-mime-types-counts.csv] whose environment has no newline and
    no dot it gives that environment.  In general what it returns is an
    environment found in the name, between [prod-] and
    [-mime-types-counts.csv], and it returns [None] exactly when the name
    has no such shape. *)
Theorem extract_env_parses_environment :
  extract_env "prod-eu-only-mime-types-counts.csv" = Some "eu-only"
  /\ extract_env "prod-us-only-mime-types-counts.csv" = Some "us-only"
  /\ extract_env "prod-global-mime-types-counts.csv" = Some "global"
  /\ (forall env,
        has_char "010" env = false ->
        has_char "." env = false ->
        extract_env ("prod-" ++ env ++ "-mime-types-counts.csv") = Some env)
  /\ (forall filename env,
        extract_env filename = Some env ->
        has_char "010" env = false
        /\ exists pre post,
             filename = pre ++ "prod-" ++ env ++ "-mime-types-counts.csv" ++ post)
  /\ (forall filename, extract_env filename = None <-> ~ env_shaped filename).
Proof.
  split; [reflexivity |]. split; [reflexivity |]. split; [reflexivity |].
  split; [| split].
  - intros env Hn Hd. unfold extract_env. rewrite search_env_step.
    change ("prod-" ++ env ++ "-mime-types-counts.csv")
      with ("prod-" ++ (env ++ "-mime-types-counts.csv")).
    rewrite drop_prefix_append. now rewrite lazy_until_exact.
  - intros filename env. apply search_env_sound.
  - intros filename. unfold extract_env. split.
    + intros H [pre [env [post [Hn ->]]]].
      now apply (search_env_complete env post pre Hn).
    + intros H. destruct (search_env filename) as [env |] eqn:E; [| reflexivity].
      exfalso. apply H. destruct (search_env_sound _ _ E) as [Hn [pre [post ->]]].
      now exists pre, env, post.
Qed.

(** ** Running the script again *)

Section Respects.

Variable D : list (string * csv).

Lemma respects_ret {A} (a : A) : respects D (ret a).
Proof. intros w w' H. now split. Qed.

Lemma respects_raise {A} (e : exn) : respects D (@raise A e).
Proof. intros w w' H. now split. Qed.

Lemma respects_bind_post {A B} (P : A -> Prop) (m : M A) (f : A -> M B) :
  respects D m ->
  (forall w a, fst (m w) = Ok a -> P a) ->
  (forall a, P a -> respects D (f a)) ->
  respects D (bind m f).
Proof.
  intros Hm HP Hf w w' Hww. unfold bind.
  destruct (Hm w w' Hww) as [Hfst Hsnd]. specialize (HP w).
  destruct (m w) as [[a | e] w1], (m w') as [[a' | e'] w1']; simpl in *; try discriminate.
  - injection Hfst as <-. apply Hf; auto.
  - injection Hfst as <-. now split.
Qed.

Lemma respects_bind {A B} (m : M A) (f : A -> M B) :
  respects D m -> (forall a, respects D (f a)) -> respects D (bind m f).
Proof.
  intros Hm Hf. apply respects_bind_post with (P := fun _ => True); auto.
Qed.

Lemma respects_foldM {A B} (body : A -> B -> M A) (l : list B) :
  (forall a x, respects D (body a x)) -> forall a, respects D (foldM body l a).
Proof.
  intros Hbody. induction l as [| x l IH]; intros a; simpl.
  - apply respects_ret.
  - apply respects_bind; [apply Hbody | intros a'; apply IH].
Qed.

Lemma respects_gets {A} (f : world -> A) :
  (forall w w', tables w = tables w' -> f w = f w') -> respects D (gets f).
Proof.
  intros Hf w w' H. split; [| exact H]. simpl. f_equal. apply Hf, H.
Qed.

Lemma respects_modify_tables (f : world -> world) :
  (forall w w', tables w = tables w' -> tables (f w) = tables (f w')) ->
  (forall w, cwd (f w) = cwd w) ->
  (forall w, stdout (f w) = stdout w) ->
  respects D (modify f).
Proof.
  intros Ht Hc Ho w w' [H1 [H2 [H3 H4]]]. split; [reflexivity |].
  simpl. unfold same_inputs. rewrite !Hc, !Ho. auto.
Qed.

Lemma respects_print line : respects D (print line).
Proof.
  intros w w' [H1 [H2 [H3 H4]]]. split; [reflexivity |].
  unfold same_inputs, tables in *. simpl. rewrite H2. auto.
Qed.

Lemma get_inputs (c : list (string * csv)) name :
  is_output name = false -> get String.eqb (inputs c) name = get String.eqb c name.
Proof.
  intros Hn. unfold inputs. induction c as [| [k v] c IH]; simpl; [reflexivity |].
  destruct (is_output k) eqn:Hk; simpl.
  - rewrite IH. destruct (String.eqb k name) eqn:E; [| reflexivity].
    apply String.eqb_eq in E. congruence.
  - now rewrite IH.
Qed.

Lemma find_inputs (pred : string * csv -> bool) (c : list (string * csv)) :
  (forall f, pred f = true -> is_output (fst f) = false) ->
  find pred (inputs c) = find pred c.
Proof.
  intros Hp. unfold inputs. induction c as [| f c IH]; simpl; [reflexivity |].
  destruct (is_output (fst f)) eqn:Hf; simpl.
  - rewrite IH. destruct (pred f) eqn:E; [| reflexivity].
    apply Hp in E. congruence.
  - now rewrite IH.
Qed.

Lemma inputs_set (c : list (string * csv)) name rows :
  is_output name = true -> inputs (set String.eqb c name rows) = inputs c.
Proof.
  intros Hn. unfold inputs. induction c as [| [k v] c IH]; simpl.
  - now rewrite Hn.
  - destruct (String.eqb k name) eqn:E; simpl.
    + apply String.eqb_eq in E. subst k. now rewrite Hn.
    + now rewrite IH.
Qed.

Lemma respects_open_read path :
  match path with Some p => is_output p = false | None => True end ->
  respects D (open_read path).
Proof.
  intros Hp w w' H. destruct path as [p |]; [| now split].
  unfold open_read, bind, gets.
  assert (E : get String.eqb (cwd w) p = get String.eqb (cwd w') p).
  { destruct H as [_ [_ [H3 _]]].
    rewrite <- (get_inputs (cwd w) p Hp), <- (get_inputs (cwd w') p Hp). now rewrite H3. }
  rewrite E. destruct (get String.eqb (cwd w') p); now split.
Qed.

Lemma respects_find_file pattern :
  (forall name, lower name = lower pattern -> is_output name = false) ->
  respects D (find_file pattern).
Proof.
  intros Hp w w' H. unfold find_file, bind, gets, ret. simpl. split; [| exact H].
  destruct H as [_ [_ [H3 _]]].
  set (pred := fun f : string * csv => String.eqb (lower (fst f)) (lower pattern)).
  assert (Hpred : forall f, pred f = true -> is_output (fst f) = false).
  { intros f Hf. apply Hp. now apply String.eqb_eq. }
  rewrite <- (find_inputs pred (cwd w) Hpred), <- (find_inputs pred (cwd w') Hpred).
  now rewrite H3.
Qed.

Lemma respects_write_file path rows :
  is_output path = true -> respects D (write_file path rows).
Proof.
  intros Hp w w' [H1 [H2 [H3 H4]]]. split; [reflexivity |].
  unfold write_file, modify, same_inputs, tables. simpl.
  rewrite !(inputs_set _ _ _ Hp). repeat split; auto.
  intros name. destruct (String.eqb path name) eqn:E.
  - apply String.eqb_eq in E. subst name.
    left. now rewrite !(get_set_same String.eqb String.eqb_eq).
  - apply String.eqb_neq in E.
    rewrite !(get_set_other String.eqb String.eqb_eq) by exact E. apply H4.
Qed.

End Respects.

Ltac tables_eq :=
  let H := fresh in
  intros ? ? H; unfold tables in *; simpl; injection H; intros; congruence.

Ltac respects_step :=
  match goal with
  | |- respects _ (bind _ _) => apply respects_bind; [| intros ?]
  | |- respects _ (ret _) => apply respects_ret
  | |- respects _ (raise _) => apply respects_raise
  | |- respects _ (gets _) => apply respects_gets; tables_eq
  | |- respects _ (print _) => apply respects_print
  | |- respects _ (foldM _ _ _) => apply respects_foldM; intros ? ?
  | |- respects _ (modify _) =>
      apply respects_modify_tables; [tables_eq | intros ?; reflexivity | intros ?; reflexivity]
  | |- respects _ (match ?x with _ => _ end) => destruct x
  | |- respects _ (if ?x then _ else _) => destruct x
  end.

Ltac respects_tac := repeat respects_step.

Lemma load_row_respects D row : respects D (load_row row).
Proof.
  unfold load_row, subscript, strip_lower, append_pattern. respects_tac.
Qed.

Lemma load_mime_mapping_respects D path :
  is_output path = false -> respects D (load_mime_mapping path).
Proof.
  intros Hp. unfold load_mime_mapping. respects_tac.
  - now apply respects_open_read.
  - apply load_row_respects.
Qed.

Lemma process_row_respects D b row : respects D (process_row b row).
Proof. unfold process_row, match_mime. respects_tac. Qed.

Lemma scan_counts_respects D input_file :
  is_output input_file = false -> respects D (scan_counts input_file).
Proof.
  intros Hp. unfold scan_counts. respects_tac.
  - now apply respects_open_read.
  - apply process_row_respects.
Qed.

Lemma sum_counts_respects D filename :
  match filename with Some p => is_output p = false | None => True end ->
  respects D (sum_counts filename).
Proof.
  intros Hp. unfold sum_counts. respects_tac. now apply respects_open_read.
Qed.

Lemma process_counts_respects D input_file p v i :
  is_output input_file = false ->
  is_output p = true -> is_output v = true -> is_output i = true ->
  respects D (process_counts input_file p v i).
Proof.
  intros Hin Hp Hv Hi.
  unfold process_counts, write_potential_mime_types, write_valid_mime_types,
    write_invalid_mime_types.
  respects_tac; auto using respects_write_file, scan_counts_respects.
Qed.

(** No report file has the name of a count file, whatever the case of
    its letters, nor the name of the mapping file. *)
Lemma output_not_input name infile :
  In infile input_names -> lower name = lower infile -> is_output name = false.
Proof.
  intros Hin Hl. destruct (is_output name) eqn:E; [exfalso | reflexivity].
  unfold is_output, mem in E. apply existsb_exists in E.
  destruct E as [o [Ho Heq]]. apply String.eqb_eq in Heq. subst o.
  assert (H : In (lower infile) (map lower output_names)).
  { rewrite <- Hl. now apply in_map. }
  revert H. clear -Hin.
  simpl in Hin. destruct Hin as [<- | [<- | [<- | []]]]; vm_compute;
    intros H; repeat (destruct H as [H | H]; [discriminate |]); exact H.
Qed.

Lemma find_file_post pattern w a :
  fst (find_file pattern w) = Ok a ->
  match a with Some path => lower path = lower pattern | None => True end.
Proof.
  unfold find_file, bind, gets, ret. simpl. intros [= <-].
  destruct (find _ (cwd w)) as [f |] eqn:E; simpl; [| exact I].
  apply find_some in E. now apply String.eqb_eq.
Qed.

Lemma main_step_respects D not_found total_count infile p v i :
  In infile input_names ->
  is_output p = true -> is_output v = true -> is_output i = true ->
  (forall name, respects D (not_found name)) ->
  respects D (main_step not_found total_count (infile, p, v, i)).
Proof.
  intros Hin Hp Hv Hi Hnf. unfold main_step.
  apply respects_bind_post
    with (P := fun a => match a with
                        | Some path => is_output path = false
                        | None => True
                        end).
  - apply respects_find_file. intros name. now apply output_not_input.
  - intros w [path |] H; [| exact I].
    apply find_file_post in H. now apply (output_not_input path infile).
  - intros [path |] Hpath.
    + respects_tac; [now apply sum_counts_respects | now apply process_counts_respects].
    + respects_tac; [now apply sum_counts_respects | apply Hnf].
Qed.

Lemma main_respects D : respects D main.
Proof.
  unfold main, main_with, files_envs. cbn [foldM].
  respects_tac;
    try (apply main_step_respects;
         [ simpl; auto | reflexivity | reflexivity | reflexivity
         | intros name; apply respects_print ]).
  now apply load_mime_mapping_respects.
Qed.

(** [main] writes report files only. *)
Lemma write_file_keeps_inputs path rows :
  is_output path = true -> preserves (fun w => inputs (cwd w)) (write_file path rows).
Proof. intros Hp w. simpl. now apply inputs_set. Qed.

Lemma print_keeps_inputs line : preserves (fun w => inputs (cwd w)) (print line).
Proof. now intros w. Qed.

Lemma process_counts_keeps_inputs input_file p v i :
  is_output p = true -> is_output v = true -> is_output i = true ->
  preserves (fun w => inputs (cwd w)) (process_counts input_file p v i).
Proof.
  intros Hp Hv Hi.
  unfold process_counts, write_potential_mime_types, write_valid_mime_types,
    write_invalid_mime_types.
  preserves_tac;
    auto using write_file_keeps_inputs, print_keeps_inputs, reads_only_preserves,
      scan_counts_reads.
Qed.

Lemma main_keeps_inputs : preserves (fun w => inputs (cwd w)) main.
Proof.
  unfold main, main_with, files_envs, main_step, load_mime_mapping, load_row,
    subscript, strip_lower, append_pattern.
  cbn [foldM].
  preserves_tac;
    auto using print_keeps_inputs, reads_only_preserves, find_file_reads, sum_counts_reads,
      open_read_reads;
    apply process_counts_keeps_inputs; reflexivity.
Qed.

Lemma main_step_keeps_inputs not_found total_count infile p v i :
  is_output p = true -> is_output v = true -> is_output i = true ->
  (forall name, preserves (fun w => inputs (cwd w)) (not_found name)) ->
  preserves (fun w => inputs (cwd w)) (main_step not_found total_count (infile, p, v, i)).
Proof.
  intros Hp Hv Hi Hnf. unfold main_step.
  preserves_tac;
    auto using reads_only_preserves, find_file_reads, sum_counts_reads,
      process_counts_keeps_inputs.
Qed.

Lemma load_mime_mapping_keeps_inputs path :
  preserves (fun w => inputs (cwd w)) (load_mime_mapping path).
Proof.
  unfold load_mime_mapping, load_row, subscript, strip_lower, append_pattern.
  preserves_tac. apply reads_only_preserves, open_read_reads.
Qed.

Lemma files_envs_outputs infile p v i :
  In (infile, p, v, i) files_envs ->
  In infile input_names /\ is_output p = true /\ is_output v = true /\ is_output i = true.
Proof.
  intros [H | [H | [H | []]]]; injection H as <- <- <- <-; repeat split; simpl; auto.
Qed.

(** Once a count file is missing, the loop of [main] does not return:
    it raises in an earlier file, or [sum_counts] raises [TypeError] on the
    missing one. *)
Lemma loop_stops_at_missing_file infile l :
  incl l files_envs ->
  In infile (map (fun f : string * string * string * string =>
                    let '(name, _, _, _) := f in name) l) ->
  forall total_count w,
    find (fun f => String.eqb (lower (fst f)) (lower infile)) (inputs (cwd w)) = None ->
    exists e,
      fst (foldM (main_step (fun name => print ("File not found: " ++ name))) l total_count w)
      = Raise e.
Proof.
  induction l as [| [[[name p] v] i] l IH]; intros Hincl Hin total_count w Hmiss;
    [contradiction |].
  destruct (files_envs_outputs name p v i) as [Hname [Hp [Hv Hi]]];
    [apply Hincl; now left |].
  cbn [foldM]. unfold bind at 1.
  pose proof (main_step_keeps_inputs (fun name => print ("File not found: " ++ name))
                total_count name p v i Hp Hv Hi print_keeps_inputs w) as Hkeep.
  cbv beta in Hkeep.
  destruct (main_step _ total_count (name, p, v, i) w) as [[t | e] w1] eqn:Hstep;
    [| now exists e].
  simpl in Hkeep. destruct Hin as [-> | Hin].
  - exfalso. rewrite main_step_run in Hstep.
    rewrite find_inputs in Hmiss.
    + rewrite Hmiss in Hstep. discriminate.
    + intros f Hf. apply (output_not_input (fst f) infile Hname). now apply String.eqb_eq.
  - apply IH; [intros f Hf; apply Hincl; now right | exact Hin | now rewrite Hkeep].
Qed.

(** A run of [main] in a directory where [find_file] finds no file for
    one of the three count-file names never returns normally. *)
Lemma missing_count_file_never_completes dir infile :
  In infile input_names ->
  fst (find_file infile (start dir)) = Ok None ->
  exists e, fst (main (start dir)) = Raise e.
Proof.
  intros Hin Hfind.
  assert (Hmiss : find (fun f => String.eqb (lower (fst f)) (lower infile))
                    (inputs (cwd (start dir))) = None).
  { rewrite find_inputs.
    - unfold find_file, bind, gets, ret in Hfind. simpl in Hfind. simpl cwd.
      destruct (find _ dir); [discriminate | reflexivity].
    - intros f Hf. apply (output_not_input (fst f) infile Hin). now apply String.eqb_eq. }
  unfold main, main_with. unfold bind at 1.
  pose proof (load_mime_mapping_keeps_inputs "mimeTypes.csv" (start dir)) as Hkeep.
  cbv beta in Hkeep.
  destruct (load_mime_mapping "mimeTypes.csv" (start dir)) as [[[] | e] w1]; [| now exists e].
  cbn [snd cwd start] in Hkeep, Hmiss. rewrite <- Hkeep in Hmiss.
  destruct (loop_stops_at_missing_file infile files_envs (incl_refl _) Hin 0 w1 Hmiss)
    as [e He].
  exists e. unfold bind.
  destruct (foldM _ files_envs 0 w1) as [[t | e'] w2]; simpl in He; [discriminate |].
  injection He as ->. reflexivity.
Qed.

(** C9. Run on the directory a first run has left, [main] ends the same
    way (it returns, or raises the same exception), prints the same lines
    and leaves every file, the nine reports among them, with the content
    the first run gave it. *)
Theorem second_run_same_reports :
  forall dir,
    let first := main (start dir) in
    let second := main (start (cwd (snd first))) in
    fst second = fst first
    /\ stdout (snd second) = stdout (snd first)
    /\ forall name,
         get String.eqb (cwd (snd second)) name = get String.eqb (cwd (snd first)) name.
Proof.
  intros dir first second.
  assert (H : same_inputs (cwd (snd first)) (start dir) (start (cwd (snd first)))).
  { repeat split.
    - symmetry. apply (main_keeps_inputs (start dir)).
    - intros name. now right. }
  destruct (main_respects (cwd (snd first)) _ _ H) as [Hfst [_ [Hout [_ Hget]]]].
  fold first second in Hfst, Hout, Hget.
  split; [now symmetry |]. split; [now symmetry |].
  intros name. destruct (Hget name) as [E | E]; exact E.
Qed.

(** ** Instances *)

(** The row [image/jpeg,5] of the scenario file, and the file as a whole. *)
Lemma known_mime_goes_to_valid_witness :
  let w := loaded jpg_mapping [(us_counts, scenario_counts)] in
  mem "image/jpeg" (valid_mimes w) = true
  /\ (exists b',
        process_row empty_buckets ["image/jpeg"; "5"] w = (Ok b', w)
        /\ valid_mime_sum b' = valid_mime_sum empty_buckets + 5
        /\ invalid_mime_aggregate b' = invalid_mime_aggregate empty_buckets)
  /\ (forall b,
        fst (scan_counts us_counts w) = Ok b ->
        get_default String.eqb 0 (valid_mime_aggregate b) "image/jpeg" = 5
        /\ ~ In "image/jpeg" (keys (invalid_mime_aggregate b))).
Proof.
  intros w.
  assert (H : mem "image/jpeg" (valid_mimes w) = true) by reflexivity.
  destruct (known_mime_goes_to_valid w "image/jpeg" H) as [Hrow Hfile].
  split; [exact H |]. split.
  - destruct (Hrow empty_buckets ["5"] 5 eq_refl) as [b' [Hrun [_ [Hsum [_ [_ [_ [Hinv _]]]]]]]].
    exists b'. now repeat split.
  - intros b Hb.
    destruct (Hfile us_counts scenario_counts b eq_refl Hb) as [Hamount [Hinv _]].
    split; [exact Hamount | exact Hinv].
Defined.

(** The row [ JPG , Image/JPEG ] loaded into empty tables. *)
Lemma load_row_three_patterns_witness :
  let row := [("extension", Some " JPG "); ("mime_type", Some " Image/JPEG")] in
  (get String.eqb row "extension" = Some (Some " JPG ")
   /\ get String.eqb row "mime_type" = Some (Some " Image/JPEG"))
  /\ load_row row (start [])
     = (Ok tt,
        mkWorld [("jpg", "image/jpeg")]
                [("image/jpeg",
                  [Re.compile [Re.Boundary; Re.Lit "jpg"; Re.Boundary] true;
                   Re.compile [Re.DotStar; Re.Lit "jpg"; Re.EndAnchor] true;
                   Re.compile [Re.Boundary; Re.Lit "image/jpeg"; Re.Boundary] true])]
                ["image/jpeg"] [] []).
Proof.
  intros row. split; [split; reflexivity |].
  exact (proj1 (proj2 (load_row_three_patterns row " JPG " " Image/JPEG" (start [])
                         eq_refl eq_refl))).
Defined.

(** ** Examples *)

Example lower_example : lower "Image/JPEG" = "image/jpeg".
Proof. reflexivity. Qed.

Example strip_example : strip "  a b " = "a b".
Proof. reflexivity. Qed.

Example int_example :
  (int " 12 ", int "-7", int "1_000", int "x", int "1__0", int "", int (String "028" "5"))
  = (Some 12, Some (-7), Some 1000, None, None, None, None).
Proof. reflexivity. Qed.

Example str_example : (str 0, str 42, str (-5)) = ("0", "42", "-5").
Proof. reflexivity. Qed.

Example search_example :
  (Re.search (word_pattern "jpg") "file.JPG",
   Re.search (word_pattern "jpg") "myfilejpg",
   Re.search (suffix_pattern "jpg") "myfilejpg",
   Re.search (word_pattern "c++") "c++")
  = (true, false, true, false).
Proof. reflexivity. Qed.

(** The end-to-end scenario: one mapping row [jpg,image/jpeg] and the
    rows [image/jpeg,10], [testJPG,4], [weirdstuff,1]. *)
Example end_to_end :
  let w := loaded jpg_mapping
             [(us_counts, [counts_header; ["image/jpeg"; "10"]; ["testJPG"; "4"];
                           ["weirdstuff"; "1"]])] in
  let w' := snd (process_counts us_counts "mime-type-mapping-US.csv"
                   "valid-mime-type-mapping-US.csv" "invalid-mime-type-mapping-US.csv" w) in
  get String.eqb (cwd w') "valid-mime-type-mapping-US.csv"
  = Some [["Valid Mime Types"; "Count"]; ["image/jpeg"; "10"]; ["Total Valid Count"; "10"]]
  /\ get String.eqb (cwd w') "mime-type-mapping-US.csv"
     = Some [["Matched Mime Types"; "Count"; "Potential Mime Types"];
             ["image/jpeg"; "4"; "testJPG"]; ["Total Count"; "4"; ""]]
  /\ get String.eqb (cwd w') "invalid-mime-type-mapping-US.csv"
     = Some [["Invalid Mime Types"; "Count"]; ["weirdstuff"; "1"];
             ["Total Invalid Count"; "1"]].
Proof. vm_compute. repeat split. Qed.

(** * Further properties *)

Lemma scenario_scan : fst (scan_counts us_counts scenario_world) = Ok scenario_buckets.
Proof. vm_compute. reflexivity. Qed.

(** ** What the buckets hold after a scan *)

Section TableFacts.

Context {K : Type} (eqb : K -> K -> bool).
Hypothesis eqb_spec : forall a b, eqb a b = true <-> a = b.

Lemma sum_values_incr (d : list (K * Z)) k n :
  sum_values (incr eqb d k n) = sum_values d + n.
Proof.
  unfold incr, get_default. induction d as [| [k' v'] d IH]; simpl.
  - lia.
  - destruct (eqb k' k); simpl; [lia |]. rewrite IH. lia.
Qed.



End TableFacts.

Lemma totals_consistent_step w b entry rest b' :
  totals_consistent b ->
  process_row b (entry :: rest) w = (Ok b', w) ->
  totals_consistent b'.
Proof.
  intros [Hv [Hp Hi]] Hrun.
  destruct (process_row_cases b entry rest w) as [b1 [Hrun' Hcase]].
  rewrite Hrun in Hrun'. injection Hrun' as <-.
  destruct Hcase as [[_ ->] | [count [_ [[_ ->] | [[_ [_ ->]] | [_ [_ ->]]]]]]];
    unfold totals_consistent; simpl; rewrite ?sum_values_incr; repeat split; lia.
Qed.


Lemma keys_classified_step w b entry rest b' :
  keys_classified w b ->
  process_row b (entry :: rest) w = (Ok b', w) ->
  keys_classified w b'.
Proof.
  intros [Hv [Hi Hp]] Hrun.
  destruct (process_row_cases b entry rest w) as [b1 [Hrun' Hcase]].
  rewrite Hrun in Hrun'. injection Hrun' as <-.
  destruct Hcase as [[_ ->] | [count [_ [[Hm ->] | [[Hm [Ht ->]] | [Hm [Ht ->]]]]]]];
    unfold keys_classified; simpl.
  - split; [| split]; assumption.
  - split; [| split; assumption]. intros k Hk. unfold incr in Hk.
    apply (keys_set_In String.eqb) in Hk; [| apply String.eqb_eq].
    destruct Hk as [-> | Hk]; auto.
  - split; [assumption |]. split; [assumption |]. intros k Hk. unfold incr in Hk.
    apply (keys_set_In okey_eqb) in Hk; [| apply okey_eqb_spec].
    destruct Hk as [-> | Hk]; [| auto].
    destruct (first_match (mime_patterns w) (normalize_entry entry)) as [m |] eqn:E;
      [| discriminate].
    exists m. split; [reflexivity |]. split.
    + intros ->. discriminate.
    + now apply first_match_key in E.
  - split; [assumption |]. split; [| assumption]. intros k Hk. unfold incr in Hk.
    apply (keys_set_In String.eqb) in Hk; [| apply String.eqb_eq].
    destruct Hk as [-> | Hk]; auto.
Qed.

(** A property the body of the row loop keeps holds of the buckets a
    scan returns. *)
Lemma scan_counts_invariant (P : buckets -> Prop) w input_file b :
  (forall b0 entry rest b', P b0 -> process_row b0 (entry :: rest) w = (Ok b', w) -> P b') ->
  P empty_buckets ->
  fst (scan_counts input_file w) = Ok b ->
  P b.
Proof.
  intros Hstep H0. unfold scan_counts, open_read.
  unfold bind at 1. unfold bind at 1. unfold gets.
  destruct (get String.eqb (cwd w) input_file) as [rows |]; [| discriminate].
  now apply (scan_rows_invariant P w Hstep).
Qed.

(** X1. In every report the count of the total row is the sum of the
    counts of the rows above it: after a scan, each of the three bucket
    totals is the sum of the counts its table holds. *)
Theorem report_totals_add_up :
  forall w input_file b,
    fst (scan_counts input_file w) = Ok b ->
    valid_mime_sum b = sum_values (valid_mime_aggregate b)
    /\ possible_mime_sum b = sum_values (potential_mime_aggregate b)
    /\ invalid_mime_sum b = sum_values (invalid_mime_aggregate b).
Proof.
  intros w input_file b Hb.
  apply (scan_counts_invariant totals_consistent w input_file b); [| | exact Hb].
  - intros b0 entry rest b' H0 Hrun. now apply (totals_consistent_step w b0 entry rest).
  - now repeat split.
Qed.

Lemma report_totals_add_up_witness :
  fst (scan_counts us_counts scenario_world) = Ok scenario_buckets
  /\ valid_mime_sum scenario_buckets = sum_values (valid_mime_aggregate scenario_buckets)
  /\ possible_mime_sum scenario_buckets = sum_values (potential_mime_aggregate scenario_buckets)
  /\ invalid_mime_sum scenario_buckets = sum_values (invalid_mime_aggregate scenario_buckets).
Proof.
  split; [exact scenario_scan |].
  exact (report_totals_add_up scenario_world us_counts scenario_buckets scenario_scan).
Defined.



(** X3. Which entries can be keys of which table after a scan: the keys
    of the valid table are members of [valid_mimes]; the keys of the invalid
    table are not, and [match_mime] gives nothing true for them; the keys of
    the potential table are MIME types of [mime_patterns], none of them
    empty.  So no text is a row of both the valid and the invalid report. *)
Theorem bucket_keys_classified :
  forall w input_file b,
    fst (scan_counts input_file w) = Ok b ->
    (forall k, In k (keys (valid_mime_aggregate b)) -> mem k (valid_mimes w) = true)
    /\ (forall k, In k (keys (invalid_mime_aggregate b)) ->
                  mem k (valid_mimes w) = false
                  /\ truthy (first_match (mime_patterns w) (normalize_entry k)) = false)
    /\ (forall k, In k (keys (potential_mime_aggregate b)) ->
                  exists m, k = Some m /\ m <> "" /\ In m (keys (mime_patterns w)))
    /\ (forall k, In k (keys (valid_mime_aggregate b)) ->
                  ~ In k (keys (invalid_mime_aggregate b))).
Proof.
  intros w input_file b Hb.
  assert (H : keys_classified w b).
  { apply (scan_counts_invariant (keys_classified w) w input_file b); [| | exact Hb].
    - intros b0 entry rest b' H0 Hrun. now apply (keys_classified_step w b0 entry rest).
    - repeat split; simpl in *; contradiction. }
  destruct H as [Hv [Hi Hp]].
  split; [exact Hv |]. split; [exact Hi |]. split; [exact Hp |].
  intros k Hk Hk'. apply Hv in Hk. apply Hi in Hk'. destruct Hk'. congruence.
Qed.

Lemma bucket_keys_classified_witness :
  fst (scan_counts us_counts scenario_world) = Ok scenario_buckets
  /\ mem "image/jpeg" (valid_mimes scenario_world) = true
  /\ mem "bogus/type" (valid_mimes scenario_world) = false
  /\ ~ In "image/jpeg" (keys (invalid_mime_aggregate scenario_buckets)).
Proof.
  split; [exact scenario_scan |].
  destruct (bucket_keys_classified scenario_world us_counts scenario_buckets scenario_scan)
    as [Hv [Hi [_ Hd]]].
  split; [apply Hv; now left |]. split; [apply Hi; now left |].
  apply Hd. now left.
Defined.

(** ** Amounts in the invalid and the potential report *)

Lemma get_default_incr_okey_same (d : list (option string * Z)) k n :
  get_default okey_eqb 0 (incr okey_eqb d k n) k = get_default okey_eqb 0 d k + n.
Proof. unfold incr, get_default at 1. now rewrite (get_set_same okey_eqb okey_eqb_spec). Qed.

Lemma get_default_incr_okey_other (d : list (option string * Z)) k k' n :
  k <> k' ->
  get_default okey_eqb 0 (incr okey_eqb d k n) k' = get_default okey_eqb 0 d k'.
Proof.
  intros H. unfold incr, get_default at 1 3.
  now rewrite (get_set_other okey_eqb okey_eqb_spec).
Qed.

Lemma invalid_amount_step e w rows :
  mem e (valid_mimes w) = false ->
  truthy (first_match (mime_patterns w) (normalize_entry e)) = false ->
  forall b b',
    fst (foldM process_row rows b w) = Ok b' ->
    get_default String.eqb 0 (invalid_mime_aggregate b') e
    = get_default String.eqb 0 (invalid_mime_aggregate b) e + total_for e rows.
Proof.
  intros He Ht. induction rows as [| row rows IH]; intros b b'; simpl.
  - intros [= <-]. lia.
  - destruct row as [| entry rest]; [discriminate |].
    destruct (process_row_cases b entry rest w) as [b1 [Hrun Hcase]].
    rewrite (bind_ok _ _ _ _ _ Hrun). intros Hfold.
    rewrite (IH b1 b' Hfold).
    destruct Hcase as [[Hc ->] | [count [Hc Hcase]]]; rewrite Hc; [reflexivity |].
    destruct (String.eqb entry e) eqn:E.
    + apply String.eqb_eq in E. subst entry.
      destruct Hcase as [[Hv _] | [[_ [Ht' _]] | [_ [_ ->]]]]; try congruence.
      simpl invalid_mime_aggregate. rewrite get_default_incr_same. lia.
    + apply String.eqb_neq in E.
      destruct Hcase as [[_ ->] | [[_ [_ ->]] | [_ [_ ->]]]]; simpl invalid_mime_aggregate;
        rewrite ?get_default_incr_other by exact E; reflexivity.
Qed.

Lemma potential_amount_step m w rows :
  m <> "" ->
  forall b b',
    fst (foldM process_row rows b w) = Ok b' ->
    get_default okey_eqb 0 (potential_mime_aggregate b') (Some m)
    = get_default okey_eqb 0 (potential_mime_aggregate b) (Some m)
      + total_where (matched_to w m) rows.
Proof.
  intros Hm. induction rows as [| row rows IH]; intros b b'; simpl.
  - intros [= <-]. lia.
  - destruct row as [| entry rest]; [discriminate |].
    destruct (process_row_cases b entry rest w) as [b1 [Hrun Hcase]].
    rewrite (bind_ok _ _ _ _ _ Hrun). intros Hfold.
    rewrite (IH b1 b' Hfold).
    destruct Hcase as [[Hc ->] | [count [Hc Hcase]]]; rewrite Hc; [reflexivity |].
    unfold matched_to at 2.
    destruct Hcase as [[Hv ->] | [[Hv [Ht ->]] | [Hv [Ht ->]]]]; rewrite Hv;
      simpl potential_mime_aggregate; simpl negb; cbv iota.
    + simpl. reflexivity.
    + rewrite andb_true_l.
      destruct (okey_eqb (first_match (mime_patterns w) (normalize_entry entry)) (Some m)) eqn:E.
      * apply okey_eqb_spec in E. rewrite E. rewrite get_default_incr_okey_same. lia.
      * rewrite get_default_incr_okey_other; [reflexivity |].
        intros H. rewrite H in E. now rewrite (proj2 (okey_eqb_spec _ _) eq_refl) in E.
    + rewrite andb_true_l.
      destruct (first_match (mime_patterns w) (normalize_entry entry)) as [[| c m'] |] eqn:E;
        simpl in Ht; try discriminate; simpl.
      * destruct m; [congruence | reflexivity].
      * reflexivity.
Qed.

(** X4. An entry that is no known MIME type and for which [match_mime]
    gives nothing true is its own row of the invalid report: after a scan
    the invalid table holds under the entry, as it stands in the file, the
    sum of the counts of the rows with that entry, and the entry is no key
    of the valid table. *)
Theorem unmatched_entry_goes_to_invalid :
  forall w e,
    mem e (valid_mimes w) = false ->
    truthy (first_match (mime_patterns w) (normalize_entry e)) = false ->
    (forall b rest count,
        row_count (e :: rest) = Some count ->
        process_row b (e :: rest) w = (Ok (add_invalid b e count), w))
    /\ (forall input_file rows b,
          get String.eqb (cwd w) input_file = Some rows ->
          fst (scan_counts input_file w) = Ok b ->
          get_default String.eqb 0 (invalid_mime_aggregate b) e = total_for e (tl rows)
          /\ ~ In e (keys (valid_mime_aggregate b))).
Proof.
  intros w e He Ht. split.
  - intros b rest count Hc. now apply process_row_invalid.
  - intros input_file rows b Hget Hb. split.
    + rewrite (scan_counts_run _ _ _ Hget) in Hb.
      now rewrite (invalid_amount_step e w _ He Ht _ _ Hb).
    + assert (H : keys_classified w b).
      { apply (scan_counts_invariant (keys_classified w) w input_file b); [| | exact Hb].
        - intros b0 entry rest b' H0 Hrun. now apply (keys_classified_step w b0 entry rest).
        - repeat split; simpl in *; contradiction. }
      destruct H as [Hv _]. intros Hk. apply Hv in Hk. congruence.
Qed.

Lemma unmatched_entry_goes_to_invalid_witness :
  (mem "bogus/type" (valid_mimes scenario_world) = false
   /\ truthy (first_match (mime_patterns scenario_world) (normalize_entry "bogus/type")) = false)
  /\ get_default String.eqb 0 (invalid_mime_aggregate scenario_buckets) "bogus/type" = 2.
Proof.
  assert (H1 : mem "bogus/type" (valid_mimes scenario_world) = false) by reflexivity.
  assert (H2 : truthy (first_match (mime_patterns scenario_world)
                         (normalize_entry "bogus/type")) = false) by reflexivity.
  split; [now split |].
  destruct (unmatched_entry_goes_to_invalid scenario_world "bogus/type" H1 H2) as [_ Hfile].
  exact (proj1 (Hfile us_counts scenario_counts scenario_buckets eq_refl scenario_scan)).
Defined.

(** X5. After a scan the potential table holds under a MIME type that is
    not empty the sum of the counts of the rows whose entry is no known
    MIME type and for which [match_mime] gives that MIME type. *)
Theorem potential_amount_is_sum_of_matched_rows :
  forall w m input_file rows b,
    m <> "" ->
    get String.eqb (cwd w) input_file = Some rows ->
    fst (scan_counts input_file w) = Ok b ->
    get_default okey_eqb 0 (potential_mime_aggregate b) (Some m)
    = total_where (matched_to w m) (tl rows).
Proof.
  intros w m input_file rows b Hm Hget Hb.
  rewrite (scan_counts_run _ _ _ Hget) in Hb.
  now rewrite (potential_amount_step m w _ Hm _ _ Hb).
Qed.

Lemma potential_amount_is_sum_of_matched_rows_witness :
  ("image/jpeg" <> ""
   /\ get String.eqb (cwd scenario_world) us_counts = Some scenario_counts
   /\ fst (scan_counts us_counts scenario_world) = Ok scenario_buckets)
  /\ get_default okey_eqb 0 (potential_mime_aggregate scenario_buckets) (Some "image/jpeg") = 3.
Proof.
  assert (H1 : "image/jpeg" <> "") by discriminate.
  split; [split; [exact H1 | split; [reflexivity | exact scenario_scan]] |].
  exact (potential_amount_is_sum_of_matched_rows scenario_world "image/jpeg" us_counts
           scenario_counts scenario_buckets H1 eq_refl scenario_scan).
Defined.

(** ** How [process_counts] ends *)

Lemma blank_or_not (rows : csv) :
  Forall (fun row => row <> []) rows \/ Exists (fun row => row = []) rows.
Proof.
  induction rows as [| row rows [IH | IH]].
  - left. constructor.
  - destruct row as [| x row]; [right; now left | left; constructor; [discriminate | exact IH]].
  - right. now right.
Qed.


Lemma process_counts_raise input_file p v i w e :
  scan_counts input_file w = (Raise e, w) ->
  process_counts input_file p v i w = (Raise e, w).
Proof. intros Hscan. unfold process_counts. now rewrite (bind_raise _ _ _ _ _ Hscan). Qed.



(** ** Finding a file *)

Lemma find_split {A} (pred : A -> bool) (l : list A) x :
  find pred l = Some x <->
  exists before after,
    l = (before ++ x :: after)%list
    /\ pred x = true
    /\ Forall (fun y => pred y = false) before.
Proof.
  split.
  - induction l as [| y l IH]; simpl; [discriminate |].
    destruct (pred y) eqn:E.
    + intros [= ->]. exists [], l. repeat split; auto.
    + intros H. destruct (IH H) as [before [after [-> [Hx Hb]]]].
      exists (y :: before), after. repeat split; auto.
  - intros [before [after [-> [Hx Hb]]]].
    induction Hb as [| y before Hy _ IH]; simpl; [now rewrite Hx | now rewrite Hy].
Qed.

Lemma find_file_run pattern w :
  find_file pattern w
  = (Ok (option_map fst (find (fun f => String.eqb (lower (fst f)) (lower pattern)) (cwd w))), w).
Proof. reflexivity. Qed.

(** X7. [find_file] returns the name of the first file of the directory,
    in listing order, whose name is the pattern when both are lower-cased,
    and [None] exactly when the directory has no such file; the directory
    is not touched, and two patterns that differ in case only find the
    same file. *)
Theorem find_file_first_match_ignoring_case :
  forall pattern w,
    snd (find_file pattern w) = w
    /\ (forall path,
          fst (find_file pattern w) = Ok (Some path) <->
          exists before rows after,
            cwd w = (before ++ (path, rows) :: after)%list
            /\ lower path = lower pattern
            /\ Forall (fun f => lower (fst f) <> lower pattern) before)
    /\ (fst (find_file pattern w) = Ok None <->
        Forall (fun f => lower (fst f) <> lower pattern) (cwd w))
    /\ (forall pattern',
          lower pattern' = lower pattern -> find_file pattern' w = find_file pattern w).
Proof.
  intros pattern w. rewrite find_file_run. simpl fst. simpl snd.
  set (pred := fun f : string * csv => String.eqb (lower (fst f)) (lower pattern)).
  assert (Hpred : forall l, Forall (fun f => pred f = false) l
                            <-> Forall (fun f : string * csv => lower (fst f) <> lower pattern) l).
  { intros l. rewrite !Forall_forall. unfold pred.
    split; intros H f Hf; specialize (H f Hf); now apply String.eqb_neq. }
  split; [reflexivity |]. split; [| split].
  - intros path. split.
    + intros [= H]. destruct (find pred (cwd w)) as [[name rows] |] eqn:E; [| discriminate].
      simpl in H. injection H as ->. apply find_split in E.
      destruct E as [before [after [Hcwd [Hx Hb]]]].
      exists before, rows, after. split; [exact Hcwd |].
      split; [now apply String.eqb_eq in Hx | now apply Hpred].
    + intros [before [rows [after [Hcwd [Hx Hb]]]]].
      assert (E : find pred (cwd w) = Some (path, rows)).
      { apply find_split. exists before, after. split; [exact Hcwd |].
        split; [unfold pred; simpl; now apply String.eqb_eq | now apply Hpred]. }
      now rewrite E.
  - split.
    + intros [= H]. destruct (find pred (cwd w)) eqn:E; [discriminate |].
      apply Hpred. apply Forall_forall. intros f Hf. now apply (find_none _ _ E).
    + intros H. apply Hpred in H. rewrite Forall_forall in H.
      destruct (find pred (cwd w)) as [f |] eqn:E; [| reflexivity].
      apply find_some in E. destruct E as [Hin Hf]. rewrite (H f Hin) in Hf. discriminate.
  - intros pattern' Hl. rewrite find_file_run. now rewrite Hl.
Qed.



(** ** A whole run of [main] *)

(** X9. [main] creates and changes report files only: whatever the
    directory and however the run ends, every file whose name is not one of
    the nine report names is after the run what it was before, and no such
    file is created. *)
Theorem main_touches_reports_only :
  forall dir,
    inputs (cwd (snd (main (start dir)))) = inputs dir
    /\ forall name,
         is_output name = false ->
         get String.eqb (cwd (snd (main (start dir)))) name = get String.eqb dir name.
Proof.
  intros dir. pose proof (main_keeps_inputs (start dir)) as H. cbv beta in H.
  split; [exact H |].
  intros name Hn. rewrite <- (get_inputs _ name Hn), H. now apply get_inputs.
Qed.




Lemma find_in_world infile dir w :
  In infile input_names ->
  inputs (cwd w) = inputs dir ->
  find (fun f : string * csv => String.eqb (lower (fst f)) (lower infile)) (cwd w)
  = find (fun f : string * csv => String.eqb (lower (fst f)) (lower infile)) dir.
Proof.
  intros Hin Hw.
  assert (Hp : forall f : string * csv,
             String.eqb (lower (fst f)) (lower infile) = true -> is_output (fst f) = false).
  { intros f Hf. apply (output_not_input (fst f) infile Hin). now apply String.eqb_eq. }
  now rewrite <- (find_inputs _ (cwd w) Hp), Hw, (find_inputs _ dir Hp).
Qed.

Lemma found_get (pred : string * csv -> bool) (dir : list (string * csv)) path rows :
  (forall f, pred f = true -> forall g, fst g = fst f -> pred g = true) ->
  find pred dir = Some (path, rows) ->
  get String.eqb dir path = Some rows.
Proof.
  intros Hname. induction dir as [| [k v] dir IH]; simpl; [discriminate |].
  destruct (pred (k, v)) eqn:E.
  - intros [= -> ->]. now rewrite String.eqb_refl.
  - intros H. destruct (String.eqb k path) eqn:Ek; [| now apply IH].
    apply String.eqb_eq in Ek. subst k. apply find_some in H. destruct H as [_ H].
    rewrite (Hname _ H (path, v) eq_refl) in E. discriminate.
Qed.






(** ** When [main] does not return *)

Lemma load_row_bad row w :
  row_fields row = None -> exists e, load_row row w = (Raise e, w).
Proof.
  unfold row_fields, load_row, subscript.
  destruct (get String.eqb row "extension") as [[e |] |];
    [| intros _; now exists AttributeError | intros _; now exists KeyError].
  destruct (get String.eqb row "mime_type") as [[m |] |];
    [discriminate | intros _; now exists AttributeError | intros _; now exists KeyError].
Qed.

Lemma load_row_good row w :
  row_fields row <> None -> exists w', load_row row w = (Ok tt, w').
Proof.
  intros H. destruct (row_fields row) as [[ext mime] |] eqn:E; [| congruence].
  destruct (row_fields_Some _ _ _ E) as [e [m [He [Hm _]]]].
  eexists. apply (load_row_run row e m w He Hm).
Qed.

Lemma load_rows_returned rows :
  forall w w',
    foldM (fun _ row => load_row row) rows tt w = (Ok tt, w') ->
    Forall (fun row => row_fields row <> None) rows.
Proof.
  induction rows as [| row rows IH]; intros w w' H; [constructor |].
  cbn [foldM] in H.
  destruct (row_fields row) as [fields |] eqn:E.
  - assert (Hgood : row_fields row <> None) by congruence.
    destruct (load_row_good row w Hgood) as [w1 Hrun].
    rewrite (bind_ok _ _ _ _ _ Hrun) in H.
    constructor; [exact Hgood | now apply (IH w1 w')].
  - destruct (load_row_bad row w E) as [e Hrun].
    rewrite (bind_raise _ _ _ _ _ Hrun) in H. discriminate.
Qed.

Lemma main_step_returned not_found total_count infile p v i dir w t w1 :
  In infile input_names ->
  inputs (cwd w) = inputs dir ->
  main_step not_found total_count (infile, p, v, i) w = (Ok t, w1) ->
  exists path rows,
    find (fun f => String.eqb (lower (fst f)) (lower infile)) dir = Some (path, rows)
    /\ Forall (fun row => row <> []) (tl rows).
Proof.
  intros Hin Hw H.
  rewrite main_step_run, (find_in_world _ _ _ Hin Hw) in H.
  destruct (find _ dir) as [[path rows] |] eqn:Hfind; [| discriminate].
  exists path, rows. split; [reflexivity |].
  simpl option_map in H. cbv iota in H.
  assert (Hpath : is_output path = false).
  { apply (output_not_input path infile Hin).
    apply find_some in Hfind. now apply String.eqb_eq. }
  assert (Hget : get String.eqb (cwd w) path = Some rows).
  { rewrite <- (get_inputs _ _ Hpath), Hw, (get_inputs _ _ Hpath).
    apply (found_get _ _ _ _) with (2 := Hfind).
    intros f0 Hf0 g Hg. cbv beta in *. now rewrite Hg. }
  rewrite (bind_ok _ _ _ _ _ (sum_counts_run _ _ _ Hget)) in H.
  destruct (blank_or_not (tl rows)) as [Hrows | Hblank]; [exact Hrows | exfalso].
  pose proof (scan_rows_blank (tl rows) empty_buckets w Hblank) as Hb.
  rewrite <- (scan_counts_run _ _ _ Hget) in Hb.
  rewrite (bind_raise _ _ _ _ _ (process_counts_raise _ p v i _ _ Hb)) in H.
  discriminate.
Qed.

(** X11. [main] returns on complete directories only: when a run
    returns, the mapping file was there with both columns on every row, and
    for each of the three names [find_file] found a count file that has no
    blank row after the first. *)
Theorem main_returns_only_on_complete_directory :
  forall dir w',
    main (start dir) = (Ok tt, w') ->
    complete_directory dir.
Proof.
  intros dir w' H. unfold main, main_with in H.
  set (nf := fun infile : string => print ("File not found: " ++ infile)) in H.
  unfold bind at 1 in H.
  pose proof (load_mime_mapping_keeps_inputs "mimeTypes.csv" (start dir)) as Hkeep.
  cbv beta in Hkeep.
  destruct (load_mime_mapping "mimeTypes.csv" (start dir)) as [[[] | e] wl] eqn:Hload;
    [| discriminate].
  cbn [snd cwd start] in Hkeep. split.
  - unfold load_mime_mapping, open_read in Hload.
    unfold bind at 1 in Hload. unfold bind at 1 in Hload. unfold gets in Hload.
    cbn [cwd start] in Hload.
    destruct (get String.eqb dir "mimeTypes.csv") as [rows |]; [| discriminate].
    exists rows. split; [reflexivity |]. now apply (load_rows_returned _ _ _ Hload).
  - unfold files_envs in H. cbn [foldM] in H. unfold bind at 1 in H.
    unfold bind at 1 in H.
    destruct (main_step nf 0 _ wl) as [[t1 | e1] w1] eqn:H1; [| discriminate].
    pose proof (main_step_keeps_inputs nf 0 "prod-us-only-mime-types-counts.csv"
                  "mime-type-mapping-US.csv" "valid-mime-type-mapping-US.csv"
                  "invalid-mime-type-mapping-US.csv" eq_refl eq_refl eq_refl
                  print_keeps_inputs wl) as K1.
    cbv beta in K1. rewrite H1 in K1. cbn [snd] in K1.
    unfold bind at 1 in H.
    destruct (main_step nf t1 _ w1) as [[t2 | e2] w2] eqn:H2; [| discriminate].
    pose proof (main_step_keeps_inputs nf t1 "prod-eu-only-mime-types-counts.csv"
                  "mime-type-mapping-EU.csv" "valid-mime-type-mapping-EU.csv"
                  "invalid-mime-type-mapping-EU.csv" eq_refl eq_refl eq_refl
                  print_keeps_inputs w1) as K2.
    cbv beta in K2. rewrite H2 in K2. cbn [snd] in K2.
    unfold bind at 1 in H.
    destruct (main_step nf t2 _ w2) as [[t3 | e3] w3] eqn:H3; [| discriminate].
    intros infile [<- | [<- | [<- | []]]].
    + eapply main_step_returned; [| | exact H1]; [simpl; auto | exact Hkeep].
    + eapply main_step_returned; [| | exact H2]; [simpl; auto | now rewrite K1].
    + eapply main_step_returned; [| | exact H3]; [simpl; auto | now rewrite K2, K1].
Qed.

Lemma main_returns_only_on_complete_directory_witness :
  (exists w', main (start full_directory) = (Ok tt, w')) /\ complete_directory full_directory.
Proof.
  assert (H : main (start full_directory)
              = (Ok tt, snd (main (start full_directory)))).
  { vm_compute. reflexivity. }
  split; [eexists; exact H |].
  exact (main_returns_only_on_complete_directory full_directory _ H).
Defined.

(** ** More of what loading keeps true *)

Lemma NoDup_add x s : NoDup s -> NoDup (add x s).
Proof.
  intros H. unfold add. destruct (mem x s) eqn:E; [exact H |].
  apply NoDup_app; [exact H | repeat constructor; intros [] | ].
  intros y Hy [<- | []]. apply mem_In in Hy. congruence.
Qed.

Lemma load_row_invariant row w :
  tables_wf w -> loader_invariant w -> loader_invariant (snd (load_row row w)).
Proof.
  intros Hwf Hinv.
  destruct (row_fields row) as [[ext mime] |] eqn:Hf.
  2:{ destruct (load_row_bad row w Hf) as [e Hrun]. now rewrite Hrun. }
  destruct (row_fields_Some _ _ _ Hf) as [e [m [He [Hm [Hext Hmime]]]]].
  rewrite (load_row_run row e m w He Hm). rewrite <- Hext, <- Hmime. simpl snd.
  destruct Hinv as [Hnd [Hpat Hext2]]. destruct Hwf as [Hkeys _].
  assert (Hold : Forall (fun p => Re.ignorecase p = true)
                   (get_default String.eqb [] (mime_patterns w) mime)
                 /\ exists n, List.length (get_default String.eqb [] (mime_patterns w) mime)
                              = (3 * n)%nat).
  { unfold get_default. destruct (get String.eqb (mime_patterns w) mime) as [ps |] eqn:G.
    - apply (get_In String.eqb String.eqb_eq) in G. destruct (Hpat _ _ G) as [H1 [n H2]].
      split; [exact H1 | now exists (S n)].
    - split; [constructor | now exists 0%nat]. }
  destruct Hold as [Hic [n Hlen]].
  split; [| split]; simpl.
  - now apply NoDup_add.
  - intros k ps Hin. apply (In_set String.eqb String.eqb_eq) in Hin.
    destruct Hin as [[-> ->] | Hin]; [| now apply (Hpat k)].
    split.
    + apply Forall_app. split; [exact Hic | repeat constructor].
    + exists n. rewrite length_app, Hlen. simpl. lia.
  - intros ext' mime' Hget.
    destruct (String.eqb ext ext') eqn:Ee.
    + apply String.eqb_eq in Ee. subst ext'.
      rewrite (get_set_same String.eqb String.eqb_eq) in Hget. injection Hget as <-.
      split; [apply In_add; now left |].
      eexists. split; [apply (get_set_same String.eqb String.eqb_eq) |].
      split; apply in_or_app; right; simpl; auto.
    + apply String.eqb_neq in Ee.
      rewrite (get_set_other String.eqb String.eqb_eq) in Hget by exact Ee.
      destruct (Hext2 _ _ Hget) as [Hv [ps [Hps [Hw Hs]]]].
      split; [apply In_add; now right |].
      destruct (String.eqb mime mime') eqn:Em.
      * apply String.eqb_eq in Em. subst mime'.
        eexists. split; [apply (get_set_same String.eqb String.eqb_eq) |].
        unfold get_default. rewrite Hps. split; apply in_or_app; now left.
      * apply String.eqb_neq in Em. exists ps.
        now rewrite (get_set_other String.eqb String.eqb_eq) by exact Em.
Qed.

Lemma load_mime_mapping_invariant path w :
  tables_wf w -> loader_invariant w ->
  tables_wf (snd (load_mime_mapping path w))
  /\ loader_invariant (snd (load_mime_mapping path w)).
Proof.
  intros Hwf Hinv.
  split; [now apply load_mime_mapping_wf |].
  unfold load_mime_mapping. unfold bind at 1.
  pose proof (open_read_reads (Some path) w) as Hr. cbv beta in Hr.
  destruct (open_read (Some path) w) as [[rows | e] w']; simpl in Hr; subst w'; [| exact Hinv].
  apply (foldM_world_invariant (fun w0 => tables_wf w0 /\ loader_invariant w0));
    [| now split].
  intros _ row w0 [H1 H2]. split; [now apply load_row_wf | now apply load_row_invariant].
Qed.

Lemma start_invariant dir : loader_invariant (start dir).
Proof.
  split; [constructor |]. split; simpl; [intros k ps [] | intros ext mime H; discriminate].
Qed.

(** X12. After [load_mime_mapping] on a fresh process, whatever the
    mapping file and even when the load raised part way, the tables agree:
    the keys of [mime_patterns] are the members of [valid_mimes] in the same
    order and without repetition; every MIME type is lower-case; every
    pattern list holds a positive multiple of three patterns, all of them
    case-insensitive; and every extension of [ext_to_mime] is mapped to a
    known MIME type whose list holds the extension's two patterns. *)
Theorem loaded_tables_agree :
  forall dir path,
    let w := snd (load_mime_mapping path (start dir)) in
    keys (mime_patterns w) = valid_mimes w
    /\ NoDup (valid_mimes w)
    /\ (forall m, In m (valid_mimes w) -> lower m = m)
    /\ (forall k ps,
          In (k, ps) (mime_patterns w) ->
          Forall (fun p => Re.ignorecase p = true) ps
          /\ exists n, List.length ps = (3 * S n)%nat)
    /\ (forall ext mime,
          get String.eqb (ext_to_mime w) ext = Some mime ->
          In mime (valid_mimes w)
          /\ exists ps,
               get String.eqb (mime_patterns w) mime = Some ps
               /\ In (word_pattern ext) ps
               /\ In (suffix_pattern ext) ps).
Proof.
  intros dir path w.
  destruct (load_mime_mapping_invariant path (start dir) (start_wf dir) (start_invariant dir))
    as [[Hkeys [Hlow _]] [Hnd [Hpat Hext]]].
  fold w in Hkeys, Hlow, Hnd, Hpat, Hext. auto.
Qed.

(** X13. The loader takes the rows in order and stops at the first row
    that lacks a column: the rows before it are loaded and stay loaded, the
    row itself leaves no trace, the rows after it are not looked at, and
    the exception is [KeyError] or [AttributeError]. *)
Theorem load_stops_at_first_bad_row :
  forall good bad rest w,
    Forall (fun row => row_fields row <> None) good ->
    row_fields bad = None ->
    exists e w1,
      foldM (fun _ row => load_row row) good tt w = (Ok tt, w1)
      /\ foldM (fun _ row => load_row row) (good ++ bad :: rest) tt w = (Raise e, w1)
      /\ (e = KeyError \/ e = AttributeError).
Proof.
  intros good bad rest w Hgood Hbad. revert w.
  induction Hgood as [| row good Hrow _ IH]; intros w.
  - destruct (load_row_bad bad w Hbad) as [e Hrun].
    exists e, w. split; [reflexivity |]. split.
    + simpl. now rewrite (bind_raise _ _ _ _ _ Hrun).
    + revert Hrun. unfold row_fields in Hbad. unfold load_row, subscript.
      destruct (get String.eqb bad "extension") as [[x |] |];
        [| intros [= <-]; now right | intros [= <-]; now left].
      destruct (get String.eqb bad "mime_type") as [[y |] |];
        [discriminate | intros [= <-]; now right | intros [= <-]; now left].
  - destruct (load_row_good row w Hrow) as [w0 Hrun].
    destruct (IH w0) as [e [w1 [H1 [H2 He]]]].
    exists e, w1. simpl. rewrite !(bind_ok _ _ _ _ _ Hrun). auto.
Qed.

Lemma load_stops_at_first_bad_row_witness :
  let good := [[("extension", Some "jpg"); ("mime_type", Some "image/jpeg")]] in
  let bad := [("extension", Some "cpp"); ("mime_type", None)] in
  let rest := [[("extension", Some "png"); ("mime_type", Some "image/png")]] in
  (Forall (fun row => row_fields row <> None) good /\ row_fields bad = None)
  /\ exists e w1,
       foldM (fun _ row => load_row row) (good ++ bad :: rest) tt (start []) = (Raise e, w1)
       /\ valid_mimes w1 = ["image/jpeg"].
Proof.
  intros good bad rest.
  assert (H1 : Forall (fun row => row_fields row <> None) good)
    by (repeat constructor; discriminate).
  assert (H2 : row_fields bad = None) by reflexivity.
  split; [now split |].
  destruct (load_stops_at_first_bad_row good bad rest (start []) H1 H2)
    as [e [w1 [Hgood [Hall _]]]].
  exists e, w1. split; [exact Hall |].
  vm_compute in Hgood. now injection Hgood as <-.
Defined.

(** ** Matching and the case of letters *)






Lemma match_here_star ic p prev s :
  Re.match_here ic (Re.DotStar :: p) prev s
  = (Re.match_here ic p prev s
     || match s with
        | EmptyString => false
        | String c s' =>
            if Ascii.eqb c "010" then false else Re.match_here ic (Re.DotStar :: p) (Some c) s'
        end)%bool.
Proof. destruct s; reflexivity. Qed.






(** ** Entries that end with a known extension *)

Lemma lower_append a b : lower (a ++ b) = lower a ++ lower b.
Proof. induction a as [| c a IH]; simpl; [reflexivity | now rewrite IH]. Qed.

Lemma search_from_here ic p prev s :
  Re.match_here ic p prev s = true -> Re.search_from ic p prev s = true.
Proof. intros H. destruct s; cbn [Re.search_from]; now rewrite H. Qed.

Lemma suffix_pattern_finds_ending ext : forall stem prev,
  Re.search_from true [Re.DotStar; Re.Lit ext; Re.EndAnchor] prev (stem ++ ext) = true.
Proof.
  assert (Hhere : forall prev,
             Re.match_here true [Re.DotStar; Re.Lit ext; Re.EndAnchor] prev ext = true).
  { intros prev. rewrite match_here_star. cbn [Re.match_here].
    pose proof (eat_self true ext prev "") as He. rewrite append_empty in He.
    rewrite He. reflexivity. }
  induction stem as [| c stem IH]; intros prev.
  - apply search_from_here, Hhere.
  - cbn [append Re.search_from]. rewrite (IH (Some c)). apply orb_true_r.
Qed.

(** X15. After loading, an entry that ends with an extension of the
    mapping file, in whatever case, always has a match: [match_mime] gives
    a MIME type for it.  If no MIME type of the mapping is empty, a row
    with such an entry is therefore never counted in the invalid bucket. *)
Theorem entry_ending_with_extension_is_matched :
  forall dir path ext mime stem ending,
    let w := snd (load_mime_mapping path (start dir)) in
    get String.eqb (ext_to_mime w) ext = Some mime ->
    lower ending = ext ->
    (exists m, first_match (mime_patterns w) (normalize_entry (stem ++ ending)) = Some m)
    /\ (~ In "" (valid_mimes w) ->
        forall b rest count,
          row_count ((stem ++ ending) :: rest) = Some count ->
          exists b',
            process_row b ((stem ++ ending) :: rest) w = (Ok b', w)
            /\ invalid_mime_aggregate b' = invalid_mime_aggregate b
            /\ invalid_mime_sum b' = invalid_mime_sum b).
Proof.
  intros dir path ext mime stem ending w Hext Hend.
  destruct (load_mime_mapping_invariant path (start dir) (start_wf dir) (start_invariant dir))
    as [[Hkeys _] [_ [_ Hmap]]].
  fold w in Hkeys, Hmap.
  destruct (Hmap ext mime Hext) as [_ [ps [Hps [_ Hsuffix]]]].
  assert (Hfound : exists m,
             first_match (mime_patterns w) (normalize_entry (stem ++ ending)) = Some m).
  { destruct (first_match (mime_patterns w) (normalize_entry (stem ++ ending))) as [m |] eqn:E;
      [now exists m | exfalso].
    apply first_match_None in E. rewrite Forall_forall in E.
    apply (get_In String.eqb String.eqb_eq) in Hps. specialize (E _ Hps).
    unfold matches in E. simpl in E.
    assert (Ht : existsb (fun p => Re.search p (normalize_entry (stem ++ ending))) ps = true).
    { apply existsb_exists. exists (suffix_pattern ext). split; [exact Hsuffix |].
      unfold normalize_entry. rewrite lower_append, Hend.
      apply suffix_pattern_finds_ending. }
    congruence. }
  split; [exact Hfound |].
  intros Hempty b rest count Hc. destruct Hfound as [m Hm].
  destruct (process_row_cases b (stem ++ ending) rest w) as [b' [Hrun Hcase]].
  exists b'. split; [exact Hrun |].
  destruct Hcase as [[_ ->] | [c [_ [[_ ->] | [[_ [_ ->]] | [_ [Ht _]]]]]]]; auto.
  exfalso. rewrite Hm in Ht. destruct m; [| discriminate].
  apply first_match_key in Hm. now rewrite Hkeys in Hm.
Qed.

Lemma entry_ending_with_extension_is_matched_witness :
  let w := snd (load_mime_mapping "mimeTypes.csv" (start [("mimeTypes.csv", jpg_mapping)])) in
  (get String.eqb (ext_to_mime w) "jpg" = Some "image/jpeg" /\ lower "JPG" = "jpg")
  /\ exists m, first_match (mime_patterns w) (normalize_entry ("test" ++ "JPG")) = Some m.
Proof.
  intros w. split; [split; reflexivity |].
  exact (proj1 (entry_ending_with_extension_is_matched [("mimeTypes.csv", jpg_mapping)]
                  "mimeTypes.csv" "jpg" "image/jpeg" "test" "JPG" eq_refl eq_refl)).
Defined.

(** ** [sum_counts] and the order of the rows *)

Lemma count_total_shift rows : forall t, count_total rows t = t + count_total rows 0.
Proof.
  unfold count_total. induction rows as [| row rows IH]; intros t; simpl; [lia |].
  destruct (row_count row) as [n |].
  - rewrite (IH (t + n)), (IH n). lia.
  - apply IH.
Qed.

Lemma count_total_cons row rows :
  count_total (row :: rows) 0
  = match row_count row with Some n => n | None => 0 end + count_total rows 0.
Proof.
  unfold count_total at 1. cbn [fold_left].
  destruct (row_count row) as [n |].
  - apply (count_total_shift rows (0 + n)).
  - reflexivity.
Qed.

Lemma count_total_app (a b : csv) :
  count_total (a ++ b)%list 0 = count_total a 0 + count_total b 0.
Proof.
  induction a as [| row a IH]; [reflexivity |].
  simpl app. rewrite !count_total_cons, IH. lia.
Qed.

(** X16. The total of [sum_counts] depends on the rows after the first
    only, and not on their order: two files whose rows after the first are
    a rearrangement of one another have the same total, whatever their
    first rows, and the total of a file is the sum of the totals of two
    parts into which its rows are cut. *)
Theorem sum_counts_ignores_row_order :
  forall w w' file file' first first' rows rows',
    get String.eqb (cwd w) file = Some (first :: rows) ->
    get String.eqb (cwd w') file' = Some (first' :: rows') ->
    (Permutation rows rows' ->
     fst (sum_counts (Some file) w) = fst (sum_counts (Some file') w'))
    /\ (forall a b,
          rows = (a ++ b)%list ->
          fst (sum_counts (Some file) w) = Ok (count_total a 0 + count_total b 0)).
Proof.
  intros w w' file file' first first' rows rows' Hget Hget'.
  rewrite (sum_counts_run _ _ _ Hget), (sum_counts_run _ _ _ Hget'). simpl. split.
  - intros Hperm. f_equal. clear Hget Hget'.
    induction Hperm as [| row l l' _ IH | x y l | l l' l'' _ IH1 _ IH2].
    + reflexivity.
    + now rewrite !count_total_cons, IH.
    + rewrite !count_total_cons. lia.
    + congruence.
  - intros a b ->. now rewrite count_total_app.
Qed.

Lemma sum_counts_ignores_row_order_witness :
  let w := start [("a.csv", [["h"]; ["x"; "1"]; ["y"; "2"]]);
                  ("b.csv", [["other"; "header"]; ["y"; "2"]; ["x"; "1"]])] in
  (get String.eqb (cwd w) "a.csv" = Some [["h"]; ["x"; "1"]; ["y"; "2"]]
   /\ get String.eqb (cwd w) "b.csv" = Some [["other"; "header"]; ["y"; "2"]; ["x"; "1"]])
  /\ fst (sum_counts (Some "a.csv") w) = fst (sum_counts (Some "b.csv") w).
Proof.
  intros w. split; [split; reflexivity |].
  apply (proj1 (sum_counts_ignores_row_order w w "a.csv" "b.csv" ["h"] ["other"; "header"]
                  [["x"; "1"]; ["y"; "2"]] [["y"; "2"]; ["x"; "1"]] eq_refl eq_refl)).
  apply perm_swap.
Defined.

(** ** The order of the rows of a report *)

Lemma entries_in_order_cons sel entry rest rows seen :
  entries_in_order sel ((entry :: rest) :: rows) seen
  = entries_in_order sel rows
      (match row_count (entry :: rest) with
       | Some _ => if sel entry then add entry seen else seen
       | None => seen
       end).
Proof. reflexivity. Qed.

Lemma rows_in_order w rows :
  forall b b',
    fst (foldM process_row rows b w) = Ok b' ->
    keys (valid_mime_aggregate b')
    = entries_in_order (fun e => mem e (valid_mimes w)) rows (keys (valid_mime_aggregate b))
    /\ keys (invalid_mime_aggregate b')
       = entries_in_order (unmatched w) rows (keys (invalid_mime_aggregate b)).
Proof.
  induction rows as [| row rows IH]; intros b b'; cbn [foldM].
  - intros [= <-]. now split.
  - destruct row as [| entry rest]; [discriminate |].
    destruct (process_row_cases b entry rest w) as [b1 [Hrun Hcase]].
    rewrite (bind_ok _ _ _ _ _ Hrun). intros Hfold.
    destruct (IH b1 b' Hfold) as [Hv Hi]. rewrite Hv, Hi. clear Hv Hi IH Hfold.
    rewrite !entries_in_order_cons.
    destruct Hcase as [[Hc ->] | [count [Hc Hcase]]]; rewrite Hc; [now split |].
    destruct Hcase as [[Hm ->] | [[Hm [Ht ->]] | [Hm [Ht ->]]]];
      unfold unmatched; rewrite Hm, ?Ht; simpl; unfold incr; rewrite ?keys_set; now split.
Qed.

(** X17. The rows of the valid and of the invalid report come in the
    order in which their entries first appear in the count file, each
    entry once: the keys of the valid table are the counted entries that
    are known MIME types, those of the invalid table the counted entries
    that are neither known nor matched, both in order of first
    occurrence. *)
Theorem report_rows_in_order_of_first_appearance :
  forall w input_file rows b,
    get String.eqb (cwd w) input_file = Some rows ->
    fst (scan_counts input_file w) = Ok b ->
    keys (valid_mime_aggregate b)
    = entries_in_order (fun e => mem e (valid_mimes w)) (tl rows) []
    /\ keys (invalid_mime_aggregate b) = entries_in_order (unmatched w) (tl rows) []
    /\ NoDup (keys (valid_mime_aggregate b))
    /\ NoDup (keys (invalid_mime_aggregate b)).
Proof.
  intros w input_file rows b Hget Hb. rewrite (scan_counts_run _ _ _ Hget) in Hb.
  destruct (rows_in_order w (tl rows) empty_buckets b Hb) as [Hv Hi].
  assert (Hnd : forall sel l seen, NoDup seen -> NoDup (entries_in_order sel l seen)).
  { intros sel. unfold entries_in_order. induction l as [| row l IHl]; intros seen Hs;
      [exact Hs |].
    cbn [fold_left]. apply IHl.
    destruct row as [| entry rest]; [exact Hs |].
    destruct (row_count (entry :: rest)); [| exact Hs].
    destruct (sel entry); [now apply NoDup_add | exact Hs]. }
  split; [exact Hv |]. split; [exact Hi |].
  rewrite Hv, Hi. split; apply Hnd; constructor.
Qed.

Lemma report_rows_in_order_of_first_appearance_witness :
  (get String.eqb (cwd scenario_world) us_counts = Some scenario_counts
   /\ fst (scan_counts us_counts scenario_world) = Ok scenario_buckets)
  /\ keys (valid_mime_aggregate scenario_buckets) = ["image/jpeg"]
  /\ keys (invalid_mime_aggregate scenario_buckets) = ["bogus/type"].
Proof.
  split; [split; [reflexivity | exact scenario_scan] |].
  destruct (report_rows_in_order_of_first_appearance scenario_world us_counts scenario_counts
              scenario_buckets eq_refl scenario_scan) as [Hv [Hi _]].
  split; [exact Hv | exact Hi].
Defined.

(** ** Loading twice *)

Lemma tables_grow_refl w : tables_grow w w.
Proof. split; [apply incl_refl | intros k; apply incl_refl]. Qed.

Lemma tables_grow_trans w1 w2 w3 : tables_grow w1 w2 -> tables_grow w2 w3 -> tables_grow w1 w3.
Proof.
  intros [H1 H2] [H3 H4]. split; [eapply incl_tran; eauto |].
  intros k. eapply incl_tran; [apply H2 | apply H4].
Qed.

Lemma load_row_grows row w : tables_grow w (snd (load_row row w)).
Proof.
  destruct (row_fields row) as [[ext mime] |] eqn:Hf.
  2:{ destruct (load_row_bad row w Hf) as [e Hrun]. rewrite Hrun. apply tables_grow_refl. }
  destruct (row_fields_Some _ _ _ Hf) as [e [m [He [Hm [Hext Hmime]]]]].
  rewrite (load_row_run row e m w He Hm). rewrite <- Hext, <- Hmime. simpl snd.
  split; simpl.
  - intros x Hx. apply In_add. now right.
  - intros k. destruct (String.eqb mime k) eqn:E.
    + apply String.eqb_eq in E. subst k. rewrite get_default_set_same.
      apply incl_appl, incl_refl.
    + apply String.eqb_neq in E. rewrite get_default_set_other by exact E. apply incl_refl.
Qed.

Lemma load_rows_grow rows : forall w,
  tables_grow w (snd (foldM (fun _ row => load_row row) rows tt w)).
Proof.
  intros w.
  apply (foldM_world_invariant (tables_grow w)); [| apply tables_grow_refl].
  intros _ row w0 H. eapply tables_grow_trans; [exact H | apply load_row_grows].
Qed.

Lemma repeated_rows rows : forall wa wb w1,
  w1 = snd (foldM (fun _ row => load_row row) rows tt wa) ->
  repeats_patterns w1 wb ->
  repeats_patterns w1 (snd (foldM (fun _ row => load_row row) rows tt wb)).
Proof.
  induction rows as [| row rows IH]; intros wa wb w1 Hw1 Hrep; [exact Hrep |].
  cbn [foldM] in *.
  destruct (row_fields row) as [[ext mime] |] eqn:Hf.
  2:{ destruct (load_row_bad row wb Hf) as [e Hrun].
      now rewrite (bind_raise _ _ _ _ _ Hrun). }
  destruct (row_fields_Some _ _ _ Hf) as [e [m [He [Hm [Hext Hmime]]]]].
  pose proof (load_row_run row e m wa He Hm) as Ha.
  pose proof (load_row_run row e m wb He Hm) as Hb.
  rewrite <- Hext, <- Hmime in Ha, Hb.
  set (wa' := mkWorld _ _ _ _ _) in Ha. set (wb' := mkWorld _ _ _ _ _) in Hb.
  rewrite (bind_ok _ _ _ _ _ Ha) in Hw1. rewrite (bind_ok _ _ _ _ _ Hb).
  apply (IH wa' wb' w1 Hw1).
  pose proof (load_rows_grow rows wa') as [Gv Gp]. rewrite <- Hw1 in Gv, Gp.
  assert (Hmem : In mime (valid_mimes w1)).
  { apply Gv. unfold wa'. simpl. apply In_add. now left. }
  assert (Hthree : incl [word_pattern ext; suffix_pattern ext; word_pattern mime]
                        (get_default String.eqb [] (mime_patterns w1) mime)).
  { intros p Hp. apply (Gp mime). unfold wa'. simpl. rewrite get_default_set_same.
    apply in_or_app. now right. }
  destruct Hrep as [Rv [Rk Rp]]. unfold wb'. split; [| split]; simpl.
  - rewrite Rv. unfold add. apply mem_In in Hmem. now rewrite Hmem.
  - rewrite keys_set, Rk. unfold add.
    destruct (mem mime (keys (mime_patterns w1))) eqn:E; [reflexivity | exfalso].
    destruct (get String.eqb (mime_patterns w1) mime) as [ps |] eqn:G.
    + apply (get_In String.eqb String.eqb_eq) in G.
      assert (Hk : In mime (keys (mime_patterns w1))).
      { unfold keys. apply in_map_iff. now exists (mime, ps). }
      apply mem_In in Hk. congruence.
    + specialize (Hthree (word_pattern ext)). unfold get_default in Hthree. rewrite G in Hthree.
      apply Hthree. now left.
  - intros k. destruct (String.eqb mime k) eqn:E.
    + apply String.eqb_eq in E. subst k. rewrite get_default_set_same.
      destruct (Rp mime) as [extra [Hx Hi]]. rewrite Hx.
      exists (extra ++ [word_pattern ext; suffix_pattern ext; word_pattern mime])%list.
      split; [now rewrite <- app_assoc |]. now apply incl_app.
    + apply String.eqb_neq in E. rewrite get_default_set_other by exact E. apply Rp.
Qed.

Lemma existsb_repeated {A} (f : A -> bool) l extra :
  incl extra l -> existsb f (l ++ extra) = existsb f l.
Proof.
  intros H. rewrite existsb_app. destruct (existsb f l) eqn:E; [reflexivity |].
  simpl. destruct (existsb f extra) eqn:E'; [| reflexivity].
  apply existsb_exists in E'. destruct E' as [x [Hx Hf]].
  assert (existsb f l = true) by (apply existsb_exists; exists x; auto). congruence.
Qed.

Lemma first_match_same_keys entry : forall items items',
  keys items = keys items' ->
  NoDup (keys items) ->
  (forall k, existsb (fun p => Re.search p entry) (get_default String.eqb [] items' k)
             = existsb (fun p => Re.search p entry) (get_default String.eqb [] items k)) ->
  first_match items' entry = first_match items entry.
Proof.
  induction items as [| [k ps] items IH]; intros [| [k' ps'] items'] Hk Hnd Hex;
    simpl in Hk; try discriminate; [reflexivity |].
  injection Hk as <- Hk. simpl.
  pose proof (Hex k) as Hhead. unfold get_default in Hhead. simpl in Hhead.
  rewrite String.eqb_refl in Hhead. rewrite Hhead.
  destruct (existsb _ ps); [reflexivity |].
  inversion Hnd as [| x l Hnotin Hnd']; subst.
  apply IH; [exact Hk | exact Hnd' |].
  intros k0. specialize (Hex k0). unfold get_default in *. simpl in Hex.
  destruct (String.eqb k k0) eqn:E; [| exact Hex].
  apply String.eqb_eq in E. subst k0.
  assert (G : get String.eqb items k = None)
    by (apply (get_None_keys String.eqb String.eqb_eq); exact Hnotin).
  assert (G' : get String.eqb items' k = None).
  { apply (get_None_keys String.eqb String.eqb_eq). now rewrite <- Hk. }
  now rewrite G, G'.
Qed.

Lemma load_mime_mapping_run path rows w :
  get String.eqb (cwd w) path = Some rows ->
  load_mime_mapping path w = foldM (fun _ row => load_row row) (dict_reader rows) tt w.
Proof.
  intros H. unfold load_mime_mapping, open_read.
  unfold bind at 1. unfold bind at 1. unfold gets. now rewrite H.
Qed.

Lemma load_mime_mapping_missing path w :
  get String.eqb (cwd w) path = None ->
  load_mime_mapping path w = (Raise FileNotFoundError, w).
Proof.
  intros H. unfold load_mime_mapping, open_read.
  unfold bind at 1. unfold bind at 1. unfold gets. now rewrite H.
Qed.

Lemma load_rows_keep_cwd rows : forall w,
  cwd (snd (foldM (fun _ row => load_row row) rows tt w)) = cwd w.
Proof.
  intros w. apply (preserves_foldM cwd). intros _ row.
  unfold load_row, subscript, strip_lower, append_pattern. preserves_tac.
Qed.

(** Whether the rows load, and with which exception they do not, does
    not depend on the tables. *)
Lemma load_rows_same_end rows : forall wa wb,
  fst (foldM (fun _ row => load_row row) rows tt wa)
  = fst (foldM (fun _ row => load_row row) rows tt wb).
Proof.
  induction rows as [| row rows IH]; intros wa wb; [reflexivity |].
  cbn [foldM].
  destruct (row_fields row) as [fields |] eqn:Hf.
  - assert (Hgood : row_fields row <> None) by congruence.
    destruct (load_row_good row wa Hgood) as [wa' Ha].
    destruct (load_row_good row wb Hgood) as [wb' Hb].
    rewrite (bind_ok _ _ _ _ _ Ha), (bind_ok _ _ _ _ _ Hb). apply IH.
  - assert (Hraise : fst (load_row row wa) = fst (load_row row wb)).
    { unfold row_fields in Hf. unfold load_row, subscript.
      destruct (get String.eqb row "extension") as [[x |] |]; try reflexivity.
      destruct (get String.eqb row "mime_type") as [[y |] |]; try reflexivity.
      discriminate. }
    destruct (load_row_bad row wa Hf) as [ea Ha].
    destruct (load_row_bad row wb Hf) as [eb Hb].
    rewrite (bind_raise _ _ _ _ _ Ha), (bind_raise _ _ _ _ _ Hb).
    rewrite Ha, Hb in Hraise. exact Hraise.
Qed.

Lemma repeats_patterns_refl w : repeats_patterns w w.
Proof.
  split; [reflexivity |]. split; [reflexivity |].
  intros k. exists []. split; [now rewrite app_nil_r | intros x []].
Qed.

Lemma load_twice path w0 :
  fst (load_mime_mapping path (snd (load_mime_mapping path w0)))
  = fst (load_mime_mapping path w0)
  /\ repeats_patterns (snd (load_mime_mapping path w0))
       (snd (load_mime_mapping path (snd (load_mime_mapping path w0)))).
Proof.
  destruct (get String.eqb (cwd w0) path) as [rows |] eqn:Hget.
  - rewrite (load_mime_mapping_run _ _ _ Hget).
    set (w1 := snd (foldM _ (dict_reader rows) tt w0)).
    assert (Hget1 : get String.eqb (cwd w1) path = Some rows).
    { unfold w1. now rewrite load_rows_keep_cwd. }
    rewrite (load_mime_mapping_run _ _ _ Hget1). split.
    + apply load_rows_same_end.
    + apply (repeated_rows (dict_reader rows) w0 w1 w1 eq_refl), repeats_patterns_refl.
  - rewrite (load_mime_mapping_missing _ _ Hget). simpl snd.
    rewrite (load_mime_mapping_missing _ _ Hget). split; [reflexivity |].
    apply repeats_patterns_refl.
Qed.

(** X18. Loading the mapping file a second time in the same process
    changes no classification: the second load ends as the first did,
    [valid_mimes] and the keys of [mime_patterns] stay as they are, and
    [match_mime] returns for every entry what it returned before. *)
Theorem second_load_changes_no_match :
  forall dir path entry,
    let first := load_mime_mapping path (start dir) in
    let second := load_mime_mapping path (snd first) in
    fst second = fst first
    /\ valid_mimes (snd second) = valid_mimes (snd first)
    /\ keys (mime_patterns (snd second)) = keys (mime_patterns (snd first))
    /\ fst (match_mime entry (snd second)) = fst (match_mime entry (snd first)).
Proof.
  intros dir path entry first second.
  pose proof (load_mime_mapping_invariant path (start dir) (start_wf dir) (start_invariant dir))
    as [[Hkeys _] [Hnd _]].
  fold first in Hkeys, Hnd.
  destruct (load_twice path (start dir)) as [Hfst [Rv [Rk Rp]]].
  fold first in Hfst, Rv, Rk, Rp. fold second in Hfst, Rv, Rk, Rp.
  split; [exact Hfst |]. split; [exact Rv |]. split; [exact Rk |].
  unfold match_mime, bind, gets, ret. simpl. f_equal.
  apply first_match_same_keys; [now symmetry | now rewrite Hkeys |].
  intros k. destruct (Rp k) as [extra [Hx Hi]]. rewrite Hx. now apply existsb_repeated.
Qed.

(** ** The table of extensions *)

Lemma load_rows_ext_to_mime ext rows :
  Forall (fun row => row_fields row <> None) rows ->
  forall w,
    get String.eqb (ext_to_mime (snd (foldM (fun _ row => load_row row) rows tt w))) ext
    = last_mime_for ext rows (get String.eqb (ext_to_mime w) ext).
Proof.
  induction 1 as [| row rows Hrow _ IH]; intros w; [reflexivity |].
  destruct (row_fields row) as [[ext' mime] |] eqn:Hf; [| congruence].
  destruct (row_fields_Some _ _ _ Hf) as [e [m [He [Hm [Hext Hmime]]]]].
  pose proof (load_row_run row e m w He Hm) as Hrun.
  rewrite <- Hext, <- Hmime in Hrun. set (w1 := mkWorld _ _ _ _ _) in Hrun.
  cbn [foldM]. rewrite (bind_ok _ _ _ _ _ Hrun), (IH w1).
  unfold last_mime_for. cbn [fold_left]. rewrite Hf. f_equal.
  unfold w1. simpl ext_to_mime.
  destruct (String.eqb ext' ext) eqn:E.
  - apply String.eqb_eq in E. rewrite <- E.
    apply (get_set_same String.eqb String.eqb_eq).
  - apply String.eqb_neq in E. now apply (get_set_other String.eqb String.eqb_eq).
Qed.

(** X19. When the mapping file names an extension on several rows,
    [ext_to_mime] keeps the MIME type of the last of them: after loading a
    mapping file whose rows have both columns, the table maps every
    extension to the MIME type of the last row that names it, and holds
    nothing for an extension no row names. *)
Theorem ext_to_mime_keeps_last_row :
  forall dir path rows ext,
    get String.eqb dir path = Some rows ->
    Forall (fun row => row_fields row <> None) (dict_reader rows) ->
    get String.eqb (ext_to_mime (snd (load_mime_mapping path (start dir)))) ext
    = last_mime_for ext (dict_reader rows) None.
Proof.
  intros dir path rows ext Hget Hrows.
  rewrite (load_mime_mapping_run path rows (start dir) Hget).
  now rewrite (load_rows_ext_to_mime ext _ Hrows).
Qed.

Lemma ext_to_mime_keeps_last_row_witness :
  let rows := [["extension"; "mime_type"]; ["jpg"; "image/jpeg"]; ["JPG "; "image/pjpeg"]] in
  (get String.eqb [("mimeTypes.csv", rows)] "mimeTypes.csv" = Some rows
   /\ Forall (fun row => row_fields row <> None) (dict_reader rows))
  /\ get String.eqb
       (ext_to_mime (snd (load_mime_mapping "mimeTypes.csv" (start [("mimeTypes.csv", rows)]))))
       "jpg"
     = Some "image/pjpeg".
Proof.
  intros rows.
  assert (H1 : get String.eqb [("mimeTypes.csv", rows)] "mimeTypes.csv" = Some rows)
    by reflexivity.
  assert (H2 : Forall (fun row => row_fields row <> None) (dict_reader rows)).
  { repeat constructor; vm_compute; discriminate. }
  split; [now split |].
  exact (ext_to_mime_keeps_last_row [("mimeTypes.csv", rows)] "mimeTypes.csv" rows "jpg" H1 H2).
Defined.

(** ** A mapping file without rows *)

Lemma keys_nil {K V} (d : list (K * V)) : keys d = [] -> d = [].
Proof. destruct d; [reflexivity | discriminate]. Qed.

(** X20. A mapping file with nothing after its first row loads without
    an exception, whatever that first row says, and leaves the three
    tables empty; every counted row of a count file is then counted as
    invalid: the valid and the potential table stay empty and the invalid
    total is the total of [sum_counts]. *)
Theorem mapping_without_rows_counts_all_invalid :
  forall dir mapping,
    get String.eqb dir "mimeTypes.csv" = Some mapping ->
    tl mapping = [] ->
    let w := snd (load_mime_mapping "mimeTypes.csv" (start dir)) in
    fst (load_mime_mapping "mimeTypes.csv" (start dir)) = Ok tt
    /\ tables w = ([], [], [])
    /\ forall input_file rows b,
         get String.eqb dir input_file = Some rows ->
         fst (scan_counts input_file w) = Ok b ->
         valid_mime_aggregate b = []
         /\ potential_mime_aggregate b = []
         /\ invalid_mime_sum b = count_total (tl rows) 0.
Proof.
  intros dir mapping Hget Htl w.
  assert (Hw : load_mime_mapping "mimeTypes.csv" (start dir) = (Ok tt, start dir)).
  { rewrite (load_mime_mapping_run "mimeTypes.csv" mapping (start dir) Hget).
    destruct mapping as [| header data]; [reflexivity |].
    simpl in Htl. subst data. reflexivity. }
  unfold w. rewrite Hw. simpl snd. simpl fst.
  split; [reflexivity |]. split; [reflexivity |].
  intros input_file rows b Hrows Hb.
  assert (Hrows' : get String.eqb (cwd (start dir)) input_file = Some rows) by exact Hrows.
  assert (Hk : keys_classified (start dir) b).
  { apply (scan_counts_invariant (keys_classified (start dir)) (start dir) input_file b);
      [| | exact Hb].
    - intros b0 entry rest b' H0 Hrun.
      now apply (keys_classified_step (start dir) b0 entry rest).
    - repeat split; simpl in *; contradiction. }
  assert (Ht : totals_consistent b).
  { apply (scan_counts_invariant totals_consistent (start dir) input_file b); [| | exact Hb].
    - intros b0 entry rest b' H0 Hrun.
      now apply (totals_consistent_step (start dir) b0 entry rest).
    - now repeat split. }
  destruct Hk as [Kv [_ Kp]]. destruct Ht as [Tv [Tp _]].
  assert (Ev : valid_mime_aggregate b = []).
  { apply keys_nil. destruct (keys (valid_mime_aggregate b)) as [| k l] eqn:E; [reflexivity |].
    specialize (Kv k (or_introl eq_refl)). discriminate. }
  assert (Ep : potential_mime_aggregate b = []).
  { apply keys_nil. destruct (keys (potential_mime_aggregate b)) as [| k l] eqn:E;
      [reflexivity |].
    destruct (Kp k (or_introl eq_refl)) as [m [_ [_ []]]]. }
  split; [exact Ev |]. split; [exact Ep |].
  rewrite (scan_counts_run _ _ _ Hrows') in Hb.
  pose proof (scan_rows_total (tl rows) (start dir) empty_buckets b 0 Hb eq_refl) as Htotal.
  unfold bucket_total in Htotal. rewrite Tv, Tp, Ev, Ep in Htotal. simpl in Htotal. lia.
Qed.

Lemma mapping_without_rows_counts_all_invalid_witness :
  let dir := [("mimeTypes.csv", [["no"; "such"; "columns"]]);
              (us_counts, scenario_counts)] in
  (get String.eqb dir "mimeTypes.csv" = Some [["no"; "such"; "columns"]]
   /\ tl [["no"; "such"; "columns"]] = @nil (list string))
  /\ fst (load_mime_mapping "mimeTypes.csv" (start dir)) = Ok tt
  /\ tables (snd (load_mime_mapping "mimeTypes.csv" (start dir))) = ([], [], []).
Proof.
  intros dir. split; [split; reflexivity |].
  destruct (mapping_without_rows_counts_all_invalid dir [["no"; "such"; "columns"]]
              eq_refl eq_refl) as [H1 [H2 _]].
  split; [exact H1 | exact H2].
Defined.

(** ** The sum invariant on a file of the scenario *)

(** The count file of the scenario has no blank row: the scan gets
    through it. *)
Lemma sum_invariant_witness :
  let w := start [(us_counts, scenario_counts)] in
  get String.eqb (cwd w) us_counts = Some scenario_counts
  /\ exists b, scan_counts us_counts w = (Ok b, w).
Proof.
  intros w. split; [reflexivity |].
  apply (proj2 (sum_invariant us_counts scenario_counts w eq_refl)).
  repeat constructor; discriminate.
Defined.
